(** * defi-sim: the concentrated-liquidity pool, its positions and the
      liquidity math, embedded in Rocq.

    The TypeScript sources are [common.types.ts], [utils.ts],
    [concentrated-liquidity-position.ts] and [concentrated-liquidity-pool.ts].

    Modelling choices.
    - A JavaScript [number] is an exact rational ([Qc], canonical fractions
      with Leibniz equality): rounding, infinities and NaN are left out. A
      division by zero is 0 in [Qc] where JavaScript has an infinity or NaN:
      the statements are about runs whose numbers are all finite, and a
      theorem whose conclusion is the value of a quotient carries the
      hypotheses that keep the denominator away from 0.
    - [Math.sqrt] is a parameter ([Math_sqrt]) of the definitions that
      call it.
    - The [Map<string, ConcentratedLiquidityPosition>] of the pool is a
      [gmap string Position]; [randomUUID()] is an explicit argument.
    - A method of the pool is a function from the pool to the pool it leaves
      behind and a [result]: a thrown [Error] keeps the pool as mutated so far.
    - A [while] loop takes fuel; running out of it is the result [Diverge]. *)

From Stdlib Require Import QArith Qcanon Lqa Field.
From stdpp Require Import base numbers option list gmap strings.

Local Open Scope Qc_scope.

(** ** Numbers *)

(** The literal [n/d]. *)
Definition num (n : Z) (d : positive) : Qc := Q2Qc (n # d).

(** [Math.min] and [Math.max] on two arguments. *)
Definition Math_min (a b : Qc) : Qc := if decide (a ≤ b) then a else b.
Definition Math_max (a b : Qc) : Qc := if decide (a ≤ b) then b else a.

(** [Number.EPSILON], 2^-52. *)
Definition Number_EPSILON : Qc := num 1 4503599627370496.

(** ** common.types.ts *)

Record Balance : Type := mkBalance { x : Qc; y : Qc }.

(** [Range = [number, number]]: [r[0]] is [r.1], [r[1]] is [r.2]. *)
Definition Range : Type := (Qc * Qc)%type.

Inductive Direction : Type := UP | DOWN.

Global Instance Direction_eq_dec : EqDecision Direction.
Proof. solve_decision. Defined.

Inductive Token : Type := TokenX | TokenY.

Global Instance Token_eq_dec : EqDecision Token.
Proof. solve_decision. Defined.

(** ** utils.ts *)

Definition getTokenAmounts (liquidity : Qc) (sqrtRange : Range) (sqrtPrice : Qc)
  : Balance :=
  let clampedSqrtPrice :=
    if decide (sqrtRange.2 < sqrtPrice) then sqrtRange.2
    else if decide (sqrtPrice < sqrtRange.1) then sqrtRange.1
    else sqrtPrice in
  {| x := liquidity / clampedSqrtPrice - liquidity / sqrtRange.2;
     y := liquidity * clampedSqrtPrice - liquidity * sqrtRange.1 |}.

(** The argument [partialRange] of [getRange]: one bound is given. *)
Inductive PartialRange : Type :=
  | GivenPa (pa : Qc)
  | GivenPb (pb : Qc).

(** Each [if] tests the bound for truthiness: a bound 0 is falsy, as an
    absent one is, and then the function falls through and returns
    [undefined] ([None]). *)
Definition getRange (balance : Balance) (sqrtPrice : Qc)
    (partialRange : PartialRange) : option Range :=
  match partialRange with
  | GivenPb pb =>
      if decide (pb ≠ 0) then
        let pa :=
          y balance * (sqrtPrice - pb) / (x balance * sqrtPrice * pb) + sqrtPrice in
        Some (pa, pb)
      else None
  | GivenPa pa =>
      if decide (pa ≠ 0) then
        let pb :=
          y balance * sqrtPrice
          / ((pa - sqrtPrice) * x balance * sqrtPrice + y balance) in
        Some (pa, pb)
      else None
  end.

(** ** concentrated-liquidity-position.ts *)

(** The back reference [liquidityPool] is only read for its [sqrtPrice]
    (getter [balance]); the model passes that price instead. *)
Record Position : Type := mkPosition {
  id : string;
  sqrtRange : Range;
  liquidity : Qc;
  initialBalance : Balance;
  rewards : Balance
}.

(** [RangeParam] and [LiquidityParam] of [PositionParams]. *)
Inductive RangeParam : Type :=
  | FromRange (range : Range)
  | FromSqrtRange (sqrtRange : Range).

Inductive LiquidityParam : Type :=
  | FromLiquidity (liquidity : Qc)
  | FromBalance (balance : Balance) (sqrtPrice : Qc).

Section WithSqrt.

(** [Math.sqrt]. *)
Variable Math_sqrt : Qc → Qc.

Definition toSqrtRange (input : Range) : Range :=
  (Math_sqrt input.1, Math_sqrt input.2).

Definition getLiquidity (tokens : Balance) (sqrtRange : Range) : Qc :=
  let pa := sqrtRange.1 in
  let pb := sqrtRange.2 in
  let a := pa / pb - 1 in
  let b := x tokens * pa + y tokens / pb in
  let c := x tokens * y tokens in
  let D := Math_sqrt (b ^ 2 - num 4 1 * a * c) in
  (- b - D) / (num 2 1 * a).

Definition getMaxTokenAmounts (tokens : Balance) (sqrtRange : Range) (sqrtPrice : Qc)
  : Balance :=
  let tokensRebalanced :=
    getTokenAmounts (getLiquidity tokens sqrtRange) sqrtRange sqrtPrice in
  let ratios :=
    {| x := x tokensRebalanced / x tokens;
       y := y tokensRebalanced / y tokens |} in
  if decide (x ratios < y ratios)
  then {| x := x tokensRebalanced / y tokensRebalanced * y tokens;
          y := y tokens |}
  else {| x := x tokens;
          y := y tokensRebalanced / x tokensRebalanced * x tokens |}.

Definition getMaxLiquidity (tokens : Balance) (sqrtRange : Range) (sqrtPrice : Qc)
  : Qc :=
  let tokensRebalanced :=
    getTokenAmounts (getLiquidity tokens sqrtRange) sqrtRange sqrtPrice in
  let ratios :=
    {| x := x tokensRebalanced / x tokens;
       y := y tokensRebalanced / y tokens |} in
  let deposited :=
    if decide (x ratios < y ratios)
    then {| x := x tokensRebalanced / y tokensRebalanced * y tokens;
            y := y tokens |}
    else {| x := x tokens;
            y := y tokensRebalanced / x tokensRebalanced * x tokens |} in
  getLiquidity deposited sqrtRange - num 1000 1 * Number_EPSILON.

(** Methods of the position. *)

(** Getter [balance], at the price of the owning pool. *)
Definition balance (poolSqrtPrice : Qc) (position : Position) : Balance :=
  getTokenAmounts (liquidity position) (sqrtRange position) poolSqrtPrice.

(** Getter [range]. *)
Definition range (position : Position) : Range :=
  ((sqrtRange position).1 ^ 2, (sqrtRange position).2 ^ 2).

(** The constructor; [poolSqrtPrice] is [params.liquidityPool.sqrtPrice]. *)
Definition new_Position (id : string) (poolSqrtPrice : Qc)
    (rangeParam : RangeParam) (liquidityParam : LiquidityParam) : Position :=
  let sqrtRange :=
    match rangeParam with
    | FromSqrtRange sqrtRange => sqrtRange
    | FromRange range => toSqrtRange range
    end in
  let liquidity :=
    match liquidityParam with
    | FromLiquidity liquidity => liquidity
    | FromBalance tokens sqrtPrice => getMaxLiquidity tokens sqrtRange sqrtPrice
    end in
  let current := getTokenAmounts liquidity sqrtRange poolSqrtPrice in
  let initialBalance :=
    match liquidityParam with
    | FromBalance tokens _ =>
        {| x := Math_min (x current) (x tokens);
           y := Math_min (y current) (y tokens) |}
    | FromLiquidity _ => current
    end in
  {| id := id; sqrtRange := sqrtRange; liquidity := liquidity;
     initialBalance := initialBalance; rewards := {| x := 0; y := 0 |} |}.

(** ** concentrated-liquidity-pool.ts *)

Record Pool : Type := mkPool {
  positions : gmap string Position;
  sqrtPrice : Qc;
  feeRate : Qc
}.

Definition set_positions (f : gmap string Position → gmap string Position)
    (pool : Pool) : Pool :=
  {| positions := f (positions pool); sqrtPrice := sqrtPrice pool;
     feeRate := feeRate pool |}.

Definition set_sqrtPrice (v : Qc) (pool : Pool) : Pool :=
  {| positions := positions pool; sqrtPrice := v; feeRate := feeRate pool |}.

(** The errors the pool throws, by their message. *)
Inductive Error : Type :=
  | CantSellNegative
  | CantBuyNegative
  | PositionDoesntExist
  | OutOfRange
  | NotEnoughLiquidity.

Definition message (e : Error) : string :=
  match e with
  | CantSellNegative => "Can't sell a negative amount"
  | CantBuyNegative => "Can't buy a negative amount"
  | PositionDoesntExist => "Position doesn't exist"
  | OutOfRange => "Out of range, no liquidity."
  | NotEnoughLiquidity => "Not enough liquidity."
  end.

Inductive result (A : Type) : Type :=
  | Return (a : A)
  | Throw (e : Error)
  | Diverge.
Global Arguments Return {A} a.
Global Arguments Throw {A} e.
Global Arguments Diverge {A}.

(** A method of the pool: the pool it leaves and how it ended. *)
Definition Method (A : Type) : Type := Pool → Pool * result A.

Global Instance Method_ret : MRet Method := λ A a pool, (pool, Return a).

Global Instance Method_bind : MBind Method := λ A B f m pool,
  match m pool with
  | (pool', Return a) => f a pool'
  | (pool', Throw e) => (pool', Throw e)
  | (pool', Diverge) => (pool', Diverge)
  end.

Definition throw {A} (e : Error) : Method A := λ pool, (pool, Throw e).
Definition diverge {A} : Method A := λ pool, (pool, Diverge).
Definition this_pool : Method Pool := λ pool, (pool, Return pool).
Definition reads {A} (f : Pool → A) : Method A := λ pool, (pool, Return (f pool)).
Definition tries {A} (f : Pool → result A) : Method A := λ pool, (pool, f pool).
Definition mutate (f : Pool → Pool) : Method unit := λ pool, (f pool, Return ()).

(** The constructor; an absent option is [None]. *)
Definition new_Pool (initialPrice feeRate : option Qc) : Pool :=
  {| positions := ∅;
     sqrtPrice := Math_sqrt (default 1 initialPrice);
     feeRate := default 0 feeRate |}.

Definition price (pool : Pool) : Qc := sqrtPrice pool ^ 2.

(** The two shapes of the argument of [enterPosition]. *)
Inductive EnterParam : Type :=
  | WithLiquidity (liquidity : Qc)
  | WithBalance (balance : Balance).

(** [uuid] is the value [randomUUID()] returns in the constructor. *)
Definition enterPosition (uuid : string) (range : Range) (param : EnterParam)
  : Method Position := λ pool,
  let position :=
    new_Position uuid (sqrtPrice pool) (FromRange range)
      match param with
      | WithLiquidity liquidity => FromLiquidity liquidity
      | WithBalance tokens => FromBalance tokens (sqrtPrice pool)
      end in
  (set_positions (insert (id position) position) pool, Return position).

Definition exitPosition (id : string) : Method Balance := λ pool,
  match positions pool !! id with
  | None => (pool, Throw PositionDoesntExist)
  | Some position =>
      let pool' := set_positions (delete id) pool in
      (pool',
       Return {| x := x (balance (sqrtPrice pool') position) + x (rewards position);
                 y := y (balance (sqrtPrice pool') position) + y (rewards position) |})
  end.

Definition getPosition (id : string) (pool : Pool) : option Position :=
  positions pool !! id.

(** The test of the filter in [getPositionsInRange]. *)
Definition inRange (dir : Direction) (sqrtPrice : Qc) (sqrtRange : Range) : bool :=
  if decide (dir = DOWN)
  then bool_decide (sqrtRange.1 < sqrtPrice) && bool_decide (sqrtPrice ≤ sqrtRange.2)
  else bool_decide (sqrtRange.1 ≤ sqrtPrice) && bool_decide (sqrtPrice < sqrtRange.2).

(** [Array.from(this.positions.values())]. *)
Definition values (pool : Pool) : list Position := (map_to_list (positions pool)).*2.

Definition getPositionsInRange (dir : Direction) (pool : Pool) : list Position :=
  filter (λ position, inRange dir (sqrtPrice pool) (sqrtRange position)) (values pool).

Definition getLiquidityInCurrentRange (dir : Direction) (pool : Pool) : Qc :=
  foldl (λ total position, total + liquidity position) 0
        (getPositionsInRange dir pool).

(** The reducer of [getCurrentRange]. *)
Definition narrow (currentRange : option Range) (range : Range) : option Range :=
  match currentRange with
  | None => Some range
  | Some currentRange =>
      Some (Math_max currentRange.1 range.1, Math_min currentRange.2 range.2)
  end.

Definition getCurrentRange (dir : Direction) (pool : Pool) : result Range :=
  match foldl narrow None (sqrtRange <$> getPositionsInRange dir pool) with
  | None => Throw OutOfRange
  | Some currentRange => Return currentRange
  end.

Definition getDInvSqrtPrice (pool : Pool) (dSqrtPrice : Qc) : Qc :=
  - dSqrtPrice / (sqrtPrice pool ^ 2 + sqrtPrice pool * dSqrtPrice).

Definition getDSqrtPrice (pool : Pool) (dInvSqrtPrice : Qc) : Qc :=
  - dInvSqrtPrice * (sqrtPrice pool ^ 2 / (1 + dInvSqrtPrice * sqrtPrice pool)).

(** The callback of [forEach] in [addFeesToPositions]. *)
Definition addFee (feesToSplit totalLiquidity : Qc) (token : Token)
    (position : Position) : Position :=
  let feesForPosition := liquidity position / totalLiquidity * feesToSplit in
  let rewards' :=
    match token with
    | TokenX => {| x := x (rewards position) + feesForPosition;
                   y := y (rewards position) |}
    | TokenY => {| x := x (rewards position);
                   y := y (rewards position) + feesForPosition |}
    end in
  {| id := id position; sqrtRange := sqrtRange position;
     liquidity := liquidity position; initialBalance := initialBalance position;
     rewards := rewards' |}.

(** The positions are objects shared with the map: the in-range ones are
    updated in place, the others are left as they are. *)
Definition addFeesToPositions (feesToSplit totalLiquidity : Qc) (token : Token)
    (direction : Direction) (pool : Pool) : Pool :=
  set_positions
    (fmap (λ position,
       if inRange direction (sqrtPrice pool) (sqrtRange position)
       then addFee feesToSplit totalLiquidity token position
       else position))
    pool.

(** *** The four trades and [movePrice]

    The body of each loop (one segment) is a method on the local
    variables of the loop; [while] iterates it. *)

(** [while (test) { body }] over the local variables [s], with fuel. *)
Fixpoint while {L : Type} (fuel : nat) (test : L → bool) (body : L → Method L)
    (s : L) : Method L :=
  if test s then
    match fuel with
    | O => diverge
    | S fuel => s' ← body s; while fuel test body s'
    end
  else mret s.

Definition sellY_segment (fees : Qc) '((dY, dX) : Qc * Qc) : Method (Qc * Qc) :=
  currentRange ← tries (getCurrentRange UP);
  liquidity ← reads (getLiquidityInCurrentRange UP);
  if decide (liquidity = 0) then throw NotEnoughLiquidity else
  this ← this_pool;
  let dSqrtPrice := Math_min (dY / liquidity) (currentRange.2 - sqrtPrice this) in
  let dYPartial := dSqrtPrice * liquidity in
  let dXPartial := liquidity * getDInvSqrtPrice this dSqrtPrice in
  let partialFees := fees * dYPartial / dY in
  mutate (addFeesToPositions partialFees liquidity TokenY UP);;
  mutate (set_sqrtPrice (sqrtPrice this + dSqrtPrice));;
  mret (dY - dYPartial, dX + dXPartial).

(** [dY > 0]. *)
Definition sellY_test '((dY, dX) : Qc * Qc) : bool := bool_decide (0 < dY).

Definition sellY (fuel : nat) (yWithFees : Qc) : Method Qc :=
  if decide (yWithFees ≤ 0) then throw CantSellNegative else
  this ← this_pool;
  let fees := yWithFees * feeRate this in
  '(dY, dX) ← while fuel sellY_test (sellY_segment fees) (yWithFees - fees, 0);
  mret (- dX).

Definition buyY_segment '((dY, dX) : Qc * Qc) : Method (Qc * Qc) :=
  currentRange ← tries (getCurrentRange DOWN);
  liquidity ← reads (getLiquidityInCurrentRange DOWN);
  if decide (liquidity = 0) then throw NotEnoughLiquidity else
  this ← this_pool;
  let dSqrtPrice := Math_max (dY / liquidity) (currentRange.1 - sqrtPrice this) in
  let dYPartial := dSqrtPrice * liquidity in
  let dXPartial := liquidity * getDInvSqrtPrice this dSqrtPrice in
  let partialFees := dXPartial / (1 - feeRate this) - dXPartial in
  mutate (addFeesToPositions partialFees liquidity TokenX DOWN);;
  mutate (set_sqrtPrice (sqrtPrice this + dSqrtPrice));;
  mret (dY - dYPartial, dX + (dXPartial + partialFees)).

(** [dY < 0]. *)
Definition buyY_test '((dY, dX) : Qc * Qc) : bool := bool_decide (dY < 0).

Definition buyY (fuel : nat) (yDesired : Qc) : Method Qc :=
  if decide (yDesired ≤ 0) then throw CantBuyNegative else
  '(dY, dX) ← while fuel buyY_test buyY_segment (- yDesired, 0);
  mret dX.

Definition sellX_segment (fees : Qc) '((dX, dY) : Qc * Qc) : Method (Qc * Qc) :=
  currentRange ← tries (getCurrentRange DOWN);
  liquidity ← reads (getLiquidityInCurrentRange DOWN);
  if decide (liquidity = 0) then throw NotEnoughLiquidity else
  this ← this_pool;
  let dSqrtPrice :=
    Math_max (getDSqrtPrice this (dX / liquidity))
             (currentRange.1 - sqrtPrice this) in
  let dYPartial := dSqrtPrice * liquidity in
  let dXPartial := liquidity * getDInvSqrtPrice this dSqrtPrice in
  let partialFees := fees * dXPartial / dX in
  mutate (addFeesToPositions partialFees liquidity TokenX DOWN);;
  mutate (set_sqrtPrice (sqrtPrice this + dSqrtPrice));;
  mret (dX - dXPartial, dY + dYPartial).

(** [dX > 0]. *)
Definition sellX_test '((dX, dY) : Qc * Qc) : bool := bool_decide (0 < dX).

Definition sellX (fuel : nat) (xWithFees : Qc) : Method Qc :=
  if decide (xWithFees ≤ 0) then throw CantSellNegative else
  this ← this_pool;
  let fees := xWithFees * feeRate this in
  '(dX, dY) ← while fuel sellX_test (sellX_segment fees) (xWithFees - fees, 0);
  mret (- dY).

Definition buyX_segment '((dX, dY) : Qc * Qc) : Method (Qc * Qc) :=
  currentRange ← tries (getCurrentRange UP);
  liquidity ← reads (getLiquidityInCurrentRange UP);
  if decide (liquidity = 0) then throw NotEnoughLiquidity else
  this ← this_pool;
  let dSqrtPrice :=
    Math_min (getDSqrtPrice this (dX / liquidity))
             (currentRange.2 - sqrtPrice this) in
  let dYPartial := dSqrtPrice * liquidity in
  let dXPartial := liquidity * getDInvSqrtPrice this dSqrtPrice in
  let partialFees := dYPartial / (1 - feeRate this) - dYPartial in
  mutate (addFeesToPositions partialFees liquidity TokenY UP);;
  mutate (set_sqrtPrice (sqrtPrice this + dSqrtPrice));;
  mret (dX - dXPartial, dY + (dYPartial + partialFees)).

(** [dX < 0]. *)
Definition buyX_test '((dX, dY) : Qc * Qc) : bool := bool_decide (dX < 0).

Definition buyX (fuel : nat) (xDesired : Qc) : Method Qc :=
  if decide (xDesired ≤ 0) then throw CantBuyNegative else
  '(dX, dY) ← while fuel buyX_test buyX_segment (- xDesired, 0);
  mret dY.

Definition movePrice_segment (sqrtTargetPrice : Qc)
    '((dSqrtPrice, dX, dY) : Qc * Qc * Qc) : Method (Qc * Qc * Qc) :=
  let direction := if decide (dSqrtPrice < 0) then DOWN else UP in
  currentRange ← tries (getCurrentRange direction);
  liquidity ← reads (getLiquidityInCurrentRange direction);
  if decide (liquidity = 0) then throw NotEnoughLiquidity else
  this ← this_pool;
  let nextSqrtPrice :=
    if decide (0 < dSqrtPrice)
    then Math_min currentRange.2 (sqrtPrice this + dSqrtPrice)
    else Math_max currentRange.1 (sqrtPrice this + dSqrtPrice) in
  let dSqrtPricePartial := nextSqrtPrice - sqrtPrice this in
  let dYPartial := liquidity * dSqrtPricePartial in
  let dXPartial := liquidity * getDInvSqrtPrice this dSqrtPricePartial in
  let partialFees :=
    (if decide (0 < dSqrtPrice) then dYPartial else dXPartial)
    * (1 / (1 - feeRate this) - 1) in
  mutate (addFeesToPositions partialFees liquidity
            (if decide (0 < dSqrtPrice) then TokenY else TokenX) direction);;
  mutate (set_sqrtPrice nextSqrtPrice);;
  mret (sqrtTargetPrice - nextSqrtPrice,
        dX + (dXPartial + (if decide (0 < dSqrtPrice) then 0 else partialFees)),
        dY + (dYPartial + (if decide (dSqrtPrice < 0) then 0 else partialFees))).

(** [dSqrtPrice !== 0]. *)
Definition movePrice_test '((dSqrtPrice, dX, dY) : Qc * Qc * Qc) : bool :=
  bool_decide (dSqrtPrice ≠ 0).

(** Returns the [delta] of the object the method returns. *)
Definition movePrice (fuel : nat) (targetPrice : Qc) : Method Balance :=
  let sqrtTargetPrice := Math_sqrt targetPrice in
  this ← this_pool;
  if decide (sqrtPrice this = sqrtTargetPrice)
  then mret {| x := 0; y := 0 |}
  else
    '(dSqrtPrice, dX, dY) ← while fuel movePrice_test
                              (movePrice_segment sqrtTargetPrice)
                              (sqrtTargetPrice - sqrtPrice this, 0, 0);
    mret {| x := dX; y := dY |}.

End WithSqrt.

(** * Notions of the specification *)

(** The clamp of the specification: [p] brought into [[lo, hi]]. *)
Definition clamp (lo hi p : Qc) : Qc := Math_max lo (Math_min p hi).

(** The membership test of the specification: [[lo, hi)] upward,
    [(lo, hi]] downward. *)
Definition covers (dir : Direction) (p : Qc) (r : Range) : Prop :=
  match dir with
  | UP => r.1 ≤ p ∧ p < r.2
  | DOWN => r.1 < p ∧ p ≤ r.2
  end.

Global Instance covers_dec dir p r : Decision (covers dir p r).
Proof. destruct dir; simpl; apply _. Defined.

(** The sum of a list of numbers. *)
Definition Qcsum (l : list Qc) : Qc := foldr Qcplus 0 l.

(** The rewards of all the positions of a pool, summed per token. *)
Definition total_rewards (pool : Pool) : Balance :=
  {| x := Qcsum ((λ position, x (rewards position)) <$> values pool);
     y := Qcsum ((λ position, y (rewards position)) <$> values pool) |}.

(** The intersection of the specification: the greatest lower bound and
    the least upper bound found among the ranges. *)
Definition is_intersection (ranges : list Range) (r : Range) : Prop :=
  (∃ a, a ∈ ranges ∧ a.1 = r.1) ∧ (∀ a, a ∈ ranges → a.1 ≤ r.1)
  ∧ (∃ a, a ∈ ranges ∧ a.2 = r.2) ∧ (∀ a, a ∈ ranges → r.2 ≤ a.2).

(** The completed turns of a loop: [segments test body (s, pool) (s', pool')]
    when turns of [body], each entered with [test] true and each ended by a
    normal return, lead from the locals [s] and the pool [pool] to the
    locals [s'] and the pool [pool']. *)
Inductive segments {L : Type} (test : L → bool) (body : L → Method L)
  : L * Pool → L * Pool → Prop :=
  | segments_none sp : segments test body sp sp
  | segments_next s pool s1 pool1 sp2 :
      test s = true →
      body s pool = (pool1, Return s1) →
      segments test body (s1, pool1) sp2 →
      segments test body (s, pool) sp2.

(** A loop started on the locals [s0] in [pool] has thrown [e] and left
    [pool']: [e] is one of the two errors of a segment, [pool'] is the pool
    as the completed segments left it, and the segment that threw found it
    and left it so. *)
Definition fails_after_segments {L : Type} (test : L → bool) (body : L → Method L)
    (s0 : L) (pool pool' : Pool) (e : Error) : Prop :=
  (e = OutOfRange ∨ e = NotEnoughLiquidity)
  ∧ ∃ s', segments test body (s0, pool) (s', pool')
          ∧ test s' = true ∧ body s' pool' = (pool', Throw e).

(** The pool at the price [p], with the fee rate [f], whose map holds the
    one position [position] under the key [k]. *)
Definition single (k : string) (position : Position) (p f : Qc) : Pool :=
  {| positions := {[ k := position ]}; sqrtPrice := p; feeRate := f |}.

(** The data model of the specification: a fee rate in [[0, 1)],
    liquidities that are not negative, ranges above 0. *)
Definition valid (pool : Pool) : Prop :=
  0 ≤ feeRate pool ∧ feeRate pool < 1
  ∧ ∀ k position, positions pool !! k = Some position →
      0 ≤ liquidity position ∧ 0 < (sqrtRange position).1.

(** [pool'] has the positions of [pool], each with its range and
    liquidity and with rewards that are not smaller. *)
Definition grown (pool pool' : Pool) : Prop :=
  feeRate pool' = feeRate pool
  ∧ ∀ k,
      match positions pool !! k, positions pool' !! k with
      | Some position, Some position' =>
          sqrtRange position' = sqrtRange position
          ∧ liquidity position' = liquidity position
          ∧ x (rewards position) ≤ x (rewards position')
          ∧ y (rewards position) ≤ y (rewards position')
      | None, None => True
      | _, _ => False
      end.

(** [pool'] has the keys of [pool] and the same fee rate, and under each
    key a position with the same id, range, liquidity and initial balance:
    only the price and the rewards may differ. *)
Definition same_deposits (pool pool' : Pool) : Prop :=
  feeRate pool' = feeRate pool
  ∧ ∀ k,
      match positions pool !! k, positions pool' !! k with
      | Some position, Some position' =>
          id position' = id position
          ∧ sqrtRange position' = sqrtRange position
          ∧ liquidity position' = liquidity position
          ∧ initialBalance position' = initialBalance position
      | None, None => True
      | _, _ => False
      end.

(** The pool a segment leaves is the pool it found, or that pool after
    one [addFeesToPositions] and one assignment to [sqrtPrice]. *)
Definition one_step (pool pool1 : Pool) : Prop :=
  pool1 = pool
  ∨ ∃ v fees total token dir,
      pool1 = set_sqrtPrice v (addFeesToPositions fees total token dir pool).

(** The number of positions whose upper bound lies above the price of the
    pool, and of those whose lower bound lies below it: what a move upward,
    or downward, can still cross. *)
Definition above (pool : Pool) : nat :=
  length (filter (λ r : Range, sqrtPrice pool < r.2) (sqrtRange <$> values pool)).

Definition below (pool : Pool) : nat :=
  length (filter (λ r : Range, r.1 < sqrtPrice pool) (sqrtRange <$> values pool)).

(** The same in the direction of a move by [d]. *)
Definition towards (d : Qc) (pool : Pool) : nat :=
  if decide (d < 0) then below pool else above pool.

(** * Concrete pools *)

(** A square root for the examples: the root to 15 decimal places,
    rounded down. It is exact on 1/4, 1, 4, 9/4 and 9. *)
Definition sqrt_15 (q : Qc) : Qc :=
  Q2Qc (Z.sqrt (Qnum q * 10 ^ 30 / Z.pos (Qden q)) # 10 ^ 15).

(** Price 1, fee rate 1/2, and two adjacent positions of liquidity 1:
    "a" on the prices [1, 4] and "b" on [4, 9]. *)
Definition two_ranges : Pool :=
  let pool := new_Pool sqrt_15 (Some 1) (Some (num 1 2)) in
  let pool :=
    (enterPosition sqrt_15 "a" (num 1 1, num 4 1) (WithLiquidity 1) pool).1 in
  (enterPosition sqrt_15 "b" (num 4 1, num 9 1) (WithLiquidity 1) pool).1.

(** Price 1, fee rate 1/2, one position "a" of liquidity 1 on the prices
    [1/4, 4]: it holds 1/2 of X and 1/2 of Y. *)
Definition one_range : Pool :=
  let pool := new_Pool sqrt_15 (Some 1) (Some (num 1 2)) in
  (enterPosition sqrt_15 "a" (num 1 4, num 4 1) (WithLiquidity 1) pool).1.

(** The pool of the repository's tests: price 1, no fee, one position "a"
    entered with the balance (100, 100) on the prices [1/1.1, 1.1]. *)
Definition around_one : Pool :=
  let pool := new_Pool sqrt_15 None None in
  (enterPosition sqrt_15 "a" (num 10 11, num 11 10)
     (WithBalance {| x := num 100 1; y := num 100 1 |}) pool).1.

(** Price 1, fee rate 1/2, and two positions of liquidity 1, one inside
    the other: "a" on the prices [1, 16] and "b" on [4, 9]. *)
Definition nested_ranges : Pool :=
  let pool := new_Pool sqrt_15 (Some 1) (Some (num 1 2)) in
  let pool :=
    (enterPosition sqrt_15 "a" (num 1 1, num 16 1) (WithLiquidity 1) pool).1 in
  (enterPosition sqrt_15 "b" (num 4 1, num 9 1) (WithLiquidity 1) pool).1.

(** * Properties *)

(** ** Arithmetic on [Qc] through [Q] *)

Lemma this_plus (a b : Qc) : (this (a + b) == this a + this b)%Q.
Proof. apply Qred_correct. Qed.

Lemma this_mult (a b : Qc) : (this (a * b) == this a * this b)%Q.
Proof. apply Qred_correct. Qed.

Lemma this_opp (a : Qc) : (this (- a) == - this a)%Q.
Proof. apply Qred_correct. Qed.

Lemma this_minus (a b : Qc) : (this (a - b) == this a - this b)%Q.
Proof. unfold Qcminus. rewrite this_plus, this_opp. reflexivity. Qed.

Lemma this_0 : (this 0 == 0)%Q.
Proof. reflexivity. Qed.

Lemma this_1 : (this 1 == 1)%Q.
Proof. reflexivity. Qed.

Lemma Qc_eq_this (a b : Qc) : a = b ↔ (this a == this b)%Q.
Proof. split; [intros ->; reflexivity | apply Qc_is_canon]. Qed.

Lemma Qc_lt_this (a b : Qc) : a < b ↔ (this a < this b)%Q.
Proof. reflexivity. Qed.

Lemma Qc_le_this (a b : Qc) : a ≤ b ↔ (this a <= this b)%Q.
Proof. reflexivity. Qed.

(** Moves a goal on [Qc] (sums, products, order) to [Q]. *)
Ltac to_Q :=
  repeat match goal with
  | H : context [@eq Qc _ _] |- _ => rewrite Qc_eq_this in H
  | H : context [Qclt _ _] |- _ => rewrite Qc_lt_this in H
  | H : context [Qcle _ _] |- _ => rewrite Qc_le_this in H
  | |- context [@eq Qc _ _] => rewrite Qc_eq_this
  | |- context [Qclt _ _] => rewrite Qc_lt_this
  | |- context [Qcle _ _] => rewrite Qc_le_this
  end;
  repeat match goal with
  | H : _ |- _ =>
      progress rewrite ?this_plus, ?this_minus, ?this_mult, ?this_opp,
        ?this_0, ?this_1 in H
  end;
  repeat progress rewrite ?this_plus, ?this_minus, ?this_mult, ?this_opp,
    ?this_0, ?this_1.

Ltac qc_lra := to_Q; lra.
Ltac qc_nra := to_Q; nra.

Lemma Qcpower_2 (a : Qc) : a ^ 2 = a * a.
Proof. simpl. ring. Qed.

(** Field equations, with the square written as a product; a side
    condition is an assumption or follows from the signs at hand. *)
Ltac qc_field :=
  rewrite ?Qcpower_2; field; repeat split;
  try assumption; try (let E := fresh in intros E; qc_nra).

Lemma Qc_pos_neq_0 (a : Qc) : 0 < a → a ≠ 0.
Proof. intros H ->. qc_lra. Qed.

Lemma Qcdiv_nonneg (a b : Qc) : 0 ≤ a → 0 < b → 0 ≤ a / b.
Proof.
  intros. apply Qcmult_nonneg_nonneg; [done |].
  by apply Qclt_le_weak, Qcinv_pos.
Qed.

Lemma Qcdiv_pos (a b : Qc) : 0 < a → 0 < b → 0 < a / b.
Proof. intros. apply Qcmult_pos_pos; [done | by apply Qcinv_pos]. Qed.

Lemma Qc_div_mult (a b : Qc) : b ≠ 0 → a / b * b = a.
Proof. intros. field. assumption. Qed.

Lemma Math_min_l (a b : Qc) : a ≤ b → Math_min a b = a.
Proof. unfold Math_min. intros. destruct (decide (a ≤ b)); [done | contradiction]. Qed.

Lemma Math_min_r (a b : Qc) : b ≤ a → Math_min a b = b.
Proof.
  unfold Math_min. intros. destruct (decide (a ≤ b)); [| done].
  by apply Qcle_antisym.
Qed.

Lemma Math_max_l (a b : Qc) : b ≤ a → Math_max a b = a.
Proof.
  unfold Math_max. intros. destruct (decide (a ≤ b)); [| done].
  by apply Qcle_antisym.
Qed.

Lemma Math_max_r (a b : Qc) : a ≤ b → Math_max a b = b.
Proof. unfold Math_max. intros. destruct (decide (a ≤ b)); [done | contradiction]. Qed.

(** ** Liquidity math *)

(** C4. For a liquidity [L >= 0], a range [0 < lo < hi] and a price
    [p > 0], [getTokenAmounts] is [x = L/c - L/hi], [y = L*c - L*lo] at the
    price [c] clamped into the range; at or above the upper bound the
    position holds no X, at or below the lower bound it holds no Y. *)
Theorem getTokenAmounts_clamped (L lo hi p : Qc) :
  0 ≤ L → 0 < lo → lo < hi → 0 < p →
  getTokenAmounts L (lo, hi) p
    = {| x := L / clamp lo hi p - L / hi; y := L * clamp lo hi p - L * lo |}
  ∧ (hi ≤ p → getTokenAmounts L (lo, hi) p = {| x := 0; y := L * hi - L * lo |})
  ∧ (p ≤ lo → getTokenAmounts L (lo, hi) p = {| x := L / lo - L / hi; y := 0 |}).
Proof.
  intros HL Hlo Hlohi Hp.
  assert (Hc : (if decide (hi < p) then hi
                else if decide (p < lo) then lo else p) = clamp lo hi p).
  { unfold clamp. destruct (decide (hi < p)) as [H|H].
    - rewrite (Math_min_r p hi) by by apply Qclt_le_weak.
      rewrite Math_max_r; [done | by apply Qclt_le_weak].
    - apply Qcnot_lt_le in H. rewrite (Math_min_l p hi) by done.
      destruct (decide (p < lo)) as [H'|H'].
      + rewrite Math_max_l; [done | by apply Qclt_le_weak].
      + apply Qcnot_lt_le in H'. by rewrite Math_max_r. }
  unfold getTokenAmounts; simpl. rewrite Hc. split; [done |]. split; intros H.
  - assert (clamp lo hi p = hi) as ->.
    { unfold clamp. rewrite Math_min_r by done.
      apply Math_max_r. by apply Qclt_le_weak. }
    f_equal. ring.
  - assert (clamp lo hi p = lo) as ->.
    { unfold clamp. rewrite Math_min_l.
      - by apply Math_max_l.
      - apply Qcle_trans with lo; [done | by apply Qclt_le_weak]. }
    f_equal. ring.
Qed.

(** ** The conversions between a step of the square-root price and a step
       of its inverse *)

Lemma getDInvSqrtPrice_getDSqrtPrice (pool : Pool) (d' : Qc) :
  0 < sqrtPrice pool → 1 + d' * sqrtPrice pool ≠ 0 →
  getDInvSqrtPrice pool (getDSqrtPrice pool d') = d'.
Proof. intros. unfold getDSqrtPrice, getDInvSqrtPrice. qc_field. Qed.

(** C5. At a price [p > 0], [getDInvSqrtPrice d] is [1/(p+d) - 1/p], that
    is [-d / (p*(p+d))], for every [d] with [p + d > 0]; [getDSqrtPrice]
    undoes it, and [getDInvSqrtPrice] undoes [getDSqrtPrice d'] for every
    [d'] with [1 + d'*p <> 0]. *)
Theorem dSqrtPrice_conversions_inverse (pool : Pool) (d d' : Qc) :
  0 < sqrtPrice pool →
  (0 < sqrtPrice pool + d →
     getDInvSqrtPrice pool d = 1 / (sqrtPrice pool + d) - 1 / sqrtPrice pool
     ∧ getDInvSqrtPrice pool d = - d / (sqrtPrice pool * (sqrtPrice pool + d))
     ∧ getDSqrtPrice pool (getDInvSqrtPrice pool d) = d)
  ∧ (1 + d' * sqrtPrice pool ≠ 0 →
     getDInvSqrtPrice pool (getDSqrtPrice pool d') = d').
Proof.
  intros Hp. split.
  - intros Hpd. unfold getDSqrtPrice, getDInvSqrtPrice.
    repeat split; qc_field.
  - by apply getDInvSqrtPrice_getDSqrtPrice.
Qed.

(** ** Positions in range *)

Lemma inRange_covers dir p r : inRange dir p r ↔ covers dir p r.
Proof.
  unfold inRange. destruct dir; simpl;
    rewrite andb_True, !bool_decide_spec; done.
Qed.

Lemma elem_of_values pool position :
  position ∈ values pool ↔ ∃ k, positions pool !! k = Some position.
Proof.
  unfold values. rewrite list_elem_of_fmap. split.
  - intros [[k v] [-> H]]. exists k. by apply elem_of_map_to_list.
  - intros [k H]. exists (k, position). split; [done |].
    by apply elem_of_map_to_list.
Qed.

Lemma elem_of_getPositionsInRange dir pool position :
  position ∈ getPositionsInRange dir pool
  ↔ position ∈ values pool ∧ covers dir (sqrtPrice pool) (sqrtRange position).
Proof.
  unfold getPositionsInRange.
  rewrite list_elem_of_filter, inRange_covers. tauto.
Qed.

Lemma getPositionsInRange_covers dir pool :
  getPositionsInRange dir pool
  = filter (λ position, covers dir (sqrtPrice pool) (sqrtRange position))
           (values pool).
Proof. apply list_filter_iff. intros. apply inRange_covers. Qed.

Lemma foldl_Qcsum {A} (f : A → Qc) (l : list A) (a : Qc) :
  foldl (λ total position, total + f position) a l = a + Qcsum (f <$> l).
Proof.
  revert a. induction l as [| b l IH]; intros a; csimpl.
  - ring.
  - rewrite IH. ring.
Qed.

Global Instance Qcsum_Permutation : Proper ((≡ₚ) ==> (=)) Qcsum.
Proof.
  intros l1 l2 H. induction H; simpl; try congruence. ring.
Qed.

Lemma getLiquidityInCurrentRange_Qcsum dir pool :
  getLiquidityInCurrentRange dir pool
  = Qcsum (liquidity <$> getPositionsInRange dir pool).
Proof. unfold getLiquidityInCurrentRange. rewrite foldl_Qcsum. ring. Qed.

Lemma values_insert pool k position :
  positions pool !! k = None →
  values (set_positions (insert k position) pool) ≡ₚ position :: values pool.
Proof.
  intros H. unfold values; simpl.
  by rewrite (map_to_list_insert _ _ _ H).
Qed.

Lemma getLiquidityInCurrentRange_insert dir pool k position :
  positions pool !! k = None →
  getLiquidityInCurrentRange dir (set_positions (insert k position) pool)
  = (if inRange dir (sqrtPrice pool) (sqrtRange position)
     then liquidity position else 0)
    + getLiquidityInCurrentRange dir pool.
Proof.
  intros H. rewrite !getLiquidityInCurrentRange_Qcsum.
  unfold getPositionsInRange at 1.
  rewrite (values_insert _ _ _ H). simpl sqrtPrice.
  rewrite filter_cons.
  destruct (decide _) as [Hin|Hin].
  - apply Is_true_true in Hin. rewrite Hin. done.
  - apply Is_true_false in Hin. rewrite Hin. simpl. unfold getPositionsInRange. ring.
Qed.

(** C2. A position of the pool is among [getPositionsInRange(UP)] exactly
    when [lo <= sqrtPrice < hi], among [getPositionsInRange(DOWN)] exactly
    when [lo < sqrtPrice <= hi]; [getLiquidityInCurrentRange] is the sum of
    the liquidity of the positions that pass this test; and entering the
    same deposit twice (under two fresh ids) adds twice what entering it
    once adds, so that on an empty pool the reported liquidity doubles. *)
Theorem positions_in_range_and_liquidity (Math_sqrt : Qc → Qc) (pool : Pool)
    (dir : Direction) (position : Position) (uuid1 uuid2 : string)
    (range : Range) (param : EnterParam) :
  (position ∈ getPositionsInRange UP pool
   ↔ position ∈ values pool
     ∧ (sqrtRange position).1 ≤ sqrtPrice pool
     ∧ sqrtPrice pool < (sqrtRange position).2)
  ∧ (position ∈ getPositionsInRange DOWN pool
     ↔ position ∈ values pool
       ∧ (sqrtRange position).1 < sqrtPrice pool
       ∧ sqrtPrice pool ≤ (sqrtRange position).2)
  ∧ getLiquidityInCurrentRange dir pool
    = Qcsum (liquidity <$>
        filter (λ position, covers dir (sqrtPrice pool) (sqrtRange position))
               (values pool))
  ∧ (positions pool !! uuid1 = None → positions pool !! uuid2 = None →
     uuid1 ≠ uuid2 →
     let pool1 := (enterPosition Math_sqrt uuid1 range param pool).1 in
     let pool2 := (enterPosition Math_sqrt uuid2 range param pool1).1 in
     getLiquidityInCurrentRange dir pool2 - getLiquidityInCurrentRange dir pool
     = 2 * (getLiquidityInCurrentRange dir pool1
            - getLiquidityInCurrentRange dir pool)
     ∧ (positions pool = ∅ →
        getLiquidityInCurrentRange dir pool2
        = 2 * getLiquidityInCurrentRange dir pool1)).
Proof.
  split; [apply (elem_of_getPositionsInRange UP) |].
  split; [apply (elem_of_getPositionsInRange DOWN) |].
  split.
  { rewrite getLiquidityInCurrentRange_Qcsum.
    by rewrite getPositionsInRange_covers. }
  intros H1 H2 Hne pool1 pool2.
  set (liquidityParam := match param with
                         | WithLiquidity liquidity => FromLiquidity liquidity
                         | WithBalance tokens => FromBalance tokens (sqrtPrice pool)
                         end).
  set (position1 := new_Position Math_sqrt uuid1 (sqrtPrice pool) (FromRange range)
                      liquidityParam).
  set (position2 := new_Position Math_sqrt uuid2 (sqrtPrice pool) (FromRange range)
                      liquidityParam).
  assert (E1 : pool1 = set_positions (insert uuid1 position1) pool) by done.
  assert (E2 : pool2 = set_positions (insert uuid2 position2) pool1) by done.
  assert (H2' : positions pool1 !! uuid2 = None).
  { rewrite E1. simpl. by rewrite lookup_insert_ne. }
  assert (E : getLiquidityInCurrentRange dir pool2
              = 2 * (getLiquidityInCurrentRange dir pool1
                     - getLiquidityInCurrentRange dir pool)
                + getLiquidityInCurrentRange dir pool).
  { rewrite E2, (getLiquidityInCurrentRange_insert _ _ _ _ H2').
    rewrite E1 at 2. rewrite E1 at 2.
    rewrite (getLiquidityInCurrentRange_insert _ _ _ _ H1).
    rewrite E1 at 1. simpl sqrtPrice.
    change (sqrtRange position2) with (sqrtRange position1).
    change (liquidity position2) with (liquidity position1).
    ring. }
  split.
  - rewrite E. ring.
  - intros Hempty. rewrite E.
    assert (getLiquidityInCurrentRange dir pool = 0) as ->.
    { unfold getLiquidityInCurrentRange, getPositionsInRange, values.
      by rewrite Hempty, map_to_list_empty. }
    ring.
Qed.

(** ** The current range *)

Lemma Math_max_cases (a b : Qc) :
  (Math_max a b = a ∧ b ≤ a) ∨ (Math_max a b = b ∧ a ≤ b).
Proof.
  unfold Math_max. destruct (decide (a ≤ b)) as [H|H]; [by right | left].
  split; [done |]. apply Qclt_le_weak. by apply Qcnot_le_lt.
Qed.

Lemma Math_min_cases (a b : Qc) :
  (Math_min a b = a ∧ a ≤ b) ∨ (Math_min a b = b ∧ b ≤ a).
Proof.
  unfold Math_min. destruct (decide (a ≤ b)) as [H|H]; [by left | right].
  split; [done |]. apply Qclt_le_weak. by apply Qcnot_le_lt.
Qed.

Lemma foldl_narrow_Some (l : list Range) (r : Range) :
  ∃ r', foldl narrow (Some r) l = Some r' ∧ is_intersection (r :: l) r'.
Proof.
  revert r. induction l as [| a l IH]; intros r; simpl.
  - exists r. split; [done |]. unfold is_intersection.
    setoid_rewrite list_elem_of_singleton.
    repeat split; eauto; intros ? ->; apply Qcle_refl.
  - destruct (IH (Math_max r.1 a.1, Math_min r.2 a.2))
      as (r' & Er & (a1 & Ha1 & E1) & Hlo & (a2 & Ha2 & E2) & Hhi).
    exists r'. split; [exact Er |].
    assert (Hlo0 := Hlo _ (list_elem_of_here _ _)).
    assert (Hhi0 := Hhi _ (list_elem_of_here _ _)). simpl in Hlo0, Hhi0.
    repeat split.
    + apply elem_of_cons in Ha1 as [-> | Ha1]; simpl in *.
      * destruct (Math_max_cases r.1 a.1) as [[E _] | [E _]];
          [exists r | exists a]; rewrite <- E1, E; split; [| done | | done];
          rewrite !elem_of_cons; auto.
      * exists a1. rewrite !elem_of_cons. auto.
    + intros b Hb. rewrite !elem_of_cons in Hb.
      destruct Hb as [-> | [-> | Hb]].
      * apply Qcle_trans with (Math_max r.1 a.1); [| done].
        destruct (Math_max_cases r.1 a.1) as [[-> ?] | [-> ?]];
          [apply Qcle_refl | done].
      * apply Qcle_trans with (Math_max r.1 a.1); [| done].
        destruct (Math_max_cases r.1 a.1) as [[-> ?] | [-> ?]];
          [done | apply Qcle_refl].
      * apply Hlo. rewrite elem_of_cons. auto.
    + apply elem_of_cons in Ha2 as [-> | Ha2]; simpl in *.
      * destruct (Math_min_cases r.2 a.2) as [[E _] | [E _]];
          [exists r | exists a]; rewrite <- E2, E; split; [| done | | done];
          rewrite !elem_of_cons; auto.
      * exists a2. rewrite !elem_of_cons. auto.
    + intros b Hb. rewrite !elem_of_cons in Hb.
      destruct Hb as [-> | [-> | Hb]].
      * apply Qcle_trans with (Math_min r.2 a.2); [done |].
        destruct (Math_min_cases r.2 a.2) as [[-> ?] | [-> ?]];
          [apply Qcle_refl | done].
      * apply Qcle_trans with (Math_min r.2 a.2); [done |].
        destruct (Math_min_cases r.2 a.2) as [[-> ?] | [-> ?]];
          [done | apply Qcle_refl].
      * apply Hhi. rewrite elem_of_cons. auto.
Qed.

Lemma getCurrentRange_cases dir pool :
  (getPositionsInRange dir pool = [] ∧ getCurrentRange dir pool = Throw OutOfRange)
  ∨ (∃ r, getCurrentRange dir pool = Return r
          ∧ is_intersection (sqrtRange <$> getPositionsInRange dir pool) r).
Proof.
  unfold getCurrentRange.
  destruct (getPositionsInRange dir pool) as [| position l]; csimpl.
  - by left.
  - right. destruct (foldl_narrow_Some (sqrtRange <$> l) (sqrtRange position))
      as (r & -> & H). by exists r.
Qed.

(** C3. [getCurrentRange] returns the intersection of the ranges of all the
    positions in range for the direction: its lower bound is the greatest
    of their lower bounds and its upper bound the least of their upper
    bounds. It throws, and then the out-of-range error, exactly when no
    position of the pool covers the price in that direction. *)
Theorem getCurrentRange_intersection (pool : Pool) (dir : Direction) :
  match getCurrentRange dir pool with
  | Return r => is_intersection (sqrtRange <$> getPositionsInRange dir pool) r
  | Throw e => e = OutOfRange
  | Diverge => False
  end
  ∧ (getCurrentRange dir pool = Throw OutOfRange
     ↔ ¬ ∃ position, position ∈ values pool
                     ∧ covers dir (sqrtPrice pool) (sqrtRange position)).
Proof.
  destruct (getCurrentRange_cases dir pool) as [[Hnil ->] | (r & -> & H)].
  - split; [done |]. split; [| done]. intros _ (position & Hin).
    apply elem_of_getPositionsInRange in Hin. rewrite Hnil in Hin.
    by apply not_elem_of_nil in Hin.
  - split; [done |]. split; [done |]. intros Hno. exfalso. apply Hno.
    destruct H as ((a & Ha & _) & _).
    apply list_elem_of_fmap in Ha as (position & _ & Hin).
    exists position. by apply elem_of_getPositionsInRange.
Qed.

(** ** Leaving the pool *)

(** C8. [exitPosition(id)] throws the not-found error and leaves the pool
    as it is when [id] is not a key of the map; otherwise it deletes the
    key and returns the balance of the position at the current price of the
    pool plus its rewards, token by token. *)
Theorem exitPosition_spec (pool : Pool) (id : string) :
  match positions pool !! id with
  | None => exitPosition id pool = (pool, Throw PositionDoesntExist)
  | Some position =>
      exitPosition id pool
      = (set_positions (delete id) pool,
         Return {| x := x (balance (sqrtPrice pool) position) + x (rewards position);
                   y := y (balance (sqrtPrice pool) position) + y (rewards position) |})
      ∧ getPosition id (exitPosition id pool).1 = None
      ∧ (∀ id', id' ≠ id →
           getPosition id' (exitPosition id pool).1 = getPosition id' pool)
      ∧ sqrtPrice (exitPosition id pool).1 = sqrtPrice pool
      ∧ feeRate (exitPosition id pool).1 = feeRate pool
  end.
Proof.
  unfold exitPosition, getPosition.
  destruct (positions pool !! id) as [position |]; [| done]. simpl.
  repeat split.
  - apply lookup_delete_eq.
  - intros id' Hne. by apply lookup_delete_ne.
Qed.

(** ** A move to the current price *)

(** C10. When the square root of the target equals the current
    [sqrtPrice], [movePrice] returns the delta [(0, 0)] and leaves the pool
    (price, map and rewards) as it is, whatever the pool holds, even no
    position at all, and whatever the fuel, even none: no segment is run, so
    no range or liquidity check is reached. *)
Theorem movePrice_same_price (Math_sqrt : Qc → Qc) (fuel : nat) (pool : Pool)
    (targetPrice : Qc) :
  Math_sqrt targetPrice = sqrtPrice pool →
  movePrice Math_sqrt fuel targetPrice pool = (pool, Return {| x := 0; y := 0 |}).
Proof.
  intros H. unfold movePrice, mbind, Method_bind, this_pool. simpl.
  by rewrite decide_True.
Qed.

(** ** A call that fails in a later segment *)

Ltac unfold_method :=
  unfold mbind, Method_bind, mret, Method_ret, tries, reads, mutate,
    this_pool, throw, diverge.

Lemma while_Throw {L : Type} fuel (test : L → bool) body s pool pool' e :
  while fuel test body s pool = (pool', Throw e) →
  ∃ s1 pool1, segments test body (s, pool) (s1, pool1)
              ∧ test s1 = true ∧ body s1 pool1 = (pool', Throw e).
Proof.
  revert s pool. induction fuel as [| fuel IH]; intros s pool; simpl;
    destruct (test s) eqn:Ht; try discriminate.
  unfold mbind, Method_bind.
  destruct (body s pool) as [pool1 [s1 | e1 |]] eqn:Hb; [| | discriminate].
  - intros H. destruct (IH _ _ H) as (s2 & pool2 & Hseg & Ht2 & Hb2).
    exists s2, pool2. split; [| done]. by eapply segments_next.
  - intros [= <- <-]. exists s, pool. split; [constructor | done].
Qed.

(** A segment that throws has not touched the pool: both checks come
    before the first mutation. *)
Lemma sellY_segment_Throw fees s pool pool' e :
  sellY_segment fees s pool = (pool', Throw e) →
  pool' = pool ∧ (e = OutOfRange ∨ e = NotEnoughLiquidity).
Proof.
  destruct s as [dY dX]. unfold sellY_segment. unfold_method.
  destruct (getCurrentRange_cases UP pool) as [[_ ->] | (r & -> & _)].
  - intros [= <- <-]. auto.
  - destruct (decide _); [| discriminate]. intros [= <- <-]. auto.
Qed.

Lemma buyY_segment_Throw s pool pool' e :
  buyY_segment s pool = (pool', Throw e) →
  pool' = pool ∧ (e = OutOfRange ∨ e = NotEnoughLiquidity).
Proof.
  destruct s as [dY dX]. unfold buyY_segment. unfold_method.
  destruct (getCurrentRange_cases DOWN pool) as [[_ ->] | (r & -> & _)].
  - intros [= <- <-]. auto.
  - destruct (decide _); [| discriminate]. intros [= <- <-]. auto.
Qed.

Lemma sellX_segment_Throw fees s pool pool' e :
  sellX_segment fees s pool = (pool', Throw e) →
  pool' = pool ∧ (e = OutOfRange ∨ e = NotEnoughLiquidity).
Proof.
  destruct s as [dX dY]. unfold sellX_segment. unfold_method.
  destruct (getCurrentRange_cases DOWN pool) as [[_ ->] | (r & -> & _)].
  - intros [= <- <-]. auto.
  - destruct (decide _); [| discriminate]. intros [= <- <-]. auto.
Qed.

Lemma buyX_segment_Throw s pool pool' e :
  buyX_segment s pool = (pool', Throw e) →
  pool' = pool ∧ (e = OutOfRange ∨ e = NotEnoughLiquidity).
Proof.
  destruct s as [dX dY]. unfold buyX_segment. unfold_method.
  destruct (getCurrentRange_cases UP pool) as [[_ ->] | (r & -> & _)].
  - intros [= <- <-]. auto.
  - destruct (decide _); [| discriminate]. intros [= <- <-]. auto.
Qed.

Lemma movePrice_segment_Throw target s pool pool' e :
  movePrice_segment target s pool = (pool', Throw e) →
  pool' = pool ∧ (e = OutOfRange ∨ e = NotEnoughLiquidity).
Proof.
  destruct s as [[dSqrtPrice dX] dY]. unfold movePrice_segment. unfold_method.
  destruct (getCurrentRange_cases (if decide (dSqrtPrice < 0) then DOWN else UP) pool)
    as [[_ ->] | (r & -> & _)].
  - intros [= <- <-]. auto.
  - destruct (decide (_ = 0)); [| discriminate]. intros [= <- <-]. auto.
Qed.

(** What a loop that throws leaves behind, given that its body throws
    before it mutates. *)
Lemma while_Throw_segments {L : Type} fuel (test : L → bool) body s pool pool' e :
  (∀ s pool pool' e, body s pool = (pool', Throw e) →
     pool' = pool ∧ (e = OutOfRange ∨ e = NotEnoughLiquidity)) →
  while fuel test body s pool = (pool', Throw e) →
  (e = OutOfRange ∨ e = NotEnoughLiquidity)
  ∧ ∃ s', segments test body (s, pool) (s', pool')
          ∧ test s' = true ∧ body s' pool' = (pool', Throw e).
Proof.
  intros Hbody H. apply while_Throw in H as (s1 & pool1 & Hseg & Ht & Hb).
  destruct (Hbody _ _ _ _ Hb) as [-> He]. eauto.
Qed.

(** C7. When a trade or a price move throws, the pool is left as the
    segments completed before the throw made it: their changes of the price
    and of the rewards stay, nothing is restored. (Only the rejection of a
    non-positive amount, thrown before the loop, leaves the pool as it
    was.) *)
Theorem failed_call_keeps_completed_segments (Math_sqrt : Qc → Qc) (fuel : nat)
    (amount : Qc) (pool pool' : Pool) (e : Error) :
  (sellY fuel amount pool = (pool', Throw e) →
     (e = CantSellNegative ∧ pool' = pool)
     ∨ fails_after_segments sellY_test (sellY_segment (amount * feeRate pool))
         (amount - amount * feeRate pool, 0) pool pool' e)
  ∧ (buyY fuel amount pool = (pool', Throw e) →
     (e = CantBuyNegative ∧ pool' = pool)
     ∨ fails_after_segments buyY_test buyY_segment (- amount, 0) pool pool' e)
  ∧ (sellX fuel amount pool = (pool', Throw e) →
     (e = CantSellNegative ∧ pool' = pool)
     ∨ fails_after_segments sellX_test (sellX_segment (amount * feeRate pool))
         (amount - amount * feeRate pool, 0) pool pool' e)
  ∧ (buyX fuel amount pool = (pool', Throw e) →
     (e = CantBuyNegative ∧ pool' = pool)
     ∨ fails_after_segments buyX_test buyX_segment (- amount, 0) pool pool' e)
  ∧ (movePrice Math_sqrt fuel amount pool = (pool', Throw e) →
     fails_after_segments movePrice_test (movePrice_segment (Math_sqrt amount))
       (Math_sqrt amount - sqrtPrice pool, 0, 0) pool pool' e).
Proof.
  split; [| split; [| split; [| split]]].
  - unfold sellY. destruct (decide (amount ≤ 0)).
    { intros [= <- <-]. by left. }
    unfold_method. simpl.
    destruct (while _ _ _ _ _) as [pool1 [[dY dX] | e1 |]] eqn:Hw;
      [discriminate | | discriminate].
    intros [= <- <-]. right.
    eapply while_Throw_segments; [apply sellY_segment_Throw | exact Hw].
  - unfold buyY. destruct (decide (amount ≤ 0)).
    { intros [= <- <-]. by left. }
    unfold_method. simpl.
    destruct (while _ _ _ _ _) as [pool1 [[dY dX] | e1 |]] eqn:Hw;
      [discriminate | | discriminate].
    intros [= <- <-]. right.
    eapply while_Throw_segments; [apply buyY_segment_Throw | exact Hw].
  - unfold sellX. destruct (decide (amount ≤ 0)).
    { intros [= <- <-]. by left. }
    unfold_method. simpl.
    destruct (while _ _ _ _ _) as [pool1 [[dX dY] | e1 |]] eqn:Hw;
      [discriminate | | discriminate].
    intros [= <- <-]. right.
    eapply while_Throw_segments; [apply sellX_segment_Throw | exact Hw].
  - unfold buyX. destruct (decide (amount ≤ 0)).
    { intros [= <- <-]. by left. }
    unfold_method. simpl.
    destruct (while _ _ _ _ _) as [pool1 [[dX dY] | e1 |]] eqn:Hw;
      [discriminate | | discriminate].
    intros [= <- <-]. right.
    eapply while_Throw_segments; [apply buyX_segment_Throw | exact Hw].
  - unfold movePrice. unfold_method. simpl.
    destruct (decide (sqrtPrice pool = Math_sqrt amount));
      [intros H; simpl in H; discriminate |].
    destruct (while _ _ _ _ _) as [pool1 [[[d dX] dY] | e1 |]] eqn:Hw;
      [discriminate | | discriminate].
    intros [= <- <-].
    eapply while_Throw_segments; [apply movePrice_segment_Throw | exact Hw].
Qed.

(** ** A pool with a single position *)

Lemma values_single k position p f : values (single k position p f) = [position].
Proof. unfold values, single. simpl. by rewrite map_to_list_singleton. Qed.

Lemma getPositionsInRange_single dir k position p f :
  getPositionsInRange dir (single k position p f)
  = if inRange dir p (sqrtRange position) then [position] else [].
Proof.
  unfold getPositionsInRange. rewrite values_single. simpl sqrtPrice.
  rewrite filter_cons, filter_nil.
  destruct (inRange dir p (sqrtRange position)) eqn:E; by destruct (decide _).
Qed.

Lemma getCurrentRange_single_in dir k position p f :
  inRange dir p (sqrtRange position) = true →
  getCurrentRange dir (single k position p f) = Return (sqrtRange position).
Proof.
  intros H. unfold getCurrentRange. by rewrite getPositionsInRange_single, H.
Qed.

Lemma getCurrentRange_single_out dir k position p f :
  inRange dir p (sqrtRange position) = false →
  getCurrentRange dir (single k position p f) = Throw OutOfRange.
Proof.
  intros H. unfold getCurrentRange. by rewrite getPositionsInRange_single, H.
Qed.

Lemma getLiquidityInCurrentRange_single_in dir k position p f :
  inRange dir p (sqrtRange position) = true →
  getLiquidityInCurrentRange dir (single k position p f) = liquidity position.
Proof.
  intros H. unfold getLiquidityInCurrentRange.
  rewrite getPositionsInRange_single, H. simpl. ring.
Qed.

Lemma addFeesToPositions_single fees total token dir k position p f :
  inRange dir p (sqrtRange position) = true →
  addFeesToPositions fees total token dir (single k position p f)
  = single k (addFee fees total token position) p f.
Proof.
  intros H. unfold addFeesToPositions, single, set_positions. simpl.
  by rewrite map_fmap_singleton, H.
Qed.

Lemma inRange_DOWN p r : inRange DOWN p r = true ↔ r.1 < p ∧ p ≤ r.2.
Proof. rewrite <- Is_true_true. apply (inRange_covers DOWN). Qed.

Lemma inRange_UP p r : inRange UP p r = true ↔ r.1 ≤ p ∧ p < r.2.
Proof. rewrite <- Is_true_true. apply (inRange_covers UP). Qed.

Lemma inRange_DOWN_at_lower r : inRange DOWN r.1 r = false.
Proof.
  apply not_true_is_false. rewrite inRange_DOWN. intros [H _].
  by apply Qclt_not_eq in H.
Qed.

Lemma inRange_UP_at_upper r : inRange UP r.2 r = false.
Proof.
  apply not_true_is_false. rewrite inRange_UP. intros [_ H].
  by apply Qclt_not_eq in H.
Qed.

(** One segment of [buyY] on a single position in range. *)
Lemma buyY_segment_single k position p f dY dX :
  inRange DOWN p (sqrtRange position) = true →
  liquidity position ≠ 0 →
  let pool := single k position p f in
  let dSqrtPrice := Math_max (dY / liquidity position) ((sqrtRange position).1 - p) in
  let dXPartial := liquidity position * getDInvSqrtPrice pool dSqrtPrice in
  let partialFees := dXPartial / (1 - f) - dXPartial in
  buyY_segment (dY, dX) pool
  = (single k (addFee partialFees (liquidity position) TokenX position)
       (p + dSqrtPrice) f,
     Return (dY - dSqrtPrice * liquidity position, dX + (dXPartial + partialFees))).
Proof.
  intros Hin HL. simpl. unfold buyY_segment. unfold_method.
  rewrite (getCurrentRange_single_in _ _ _ _ _ Hin).
  rewrite (getLiquidityInCurrentRange_single_in _ _ _ _ _ Hin).
  rewrite decide_False by done. simpl.
  by rewrite (addFeesToPositions_single _ _ _ _ _ _ _ _ Hin).
Qed.

(** One segment of [buyX] on a single position in range. *)
Lemma buyX_segment_single k position p f dX dY :
  inRange UP p (sqrtRange position) = true →
  liquidity position ≠ 0 →
  let pool := single k position p f in
  let dSqrtPrice :=
    Math_min (getDSqrtPrice pool (dX / liquidity position))
             ((sqrtRange position).2 - p) in
  let dYPartial := dSqrtPrice * liquidity position in
  let dXPartial := liquidity position * getDInvSqrtPrice pool dSqrtPrice in
  let partialFees := dYPartial / (1 - f) - dYPartial in
  buyX_segment (dX, dY) pool
  = (single k (addFee partialFees (liquidity position) TokenY position)
       (p + dSqrtPrice) f,
     Return (dX - dXPartial, dY + (dYPartial + partialFees))).
Proof.
  intros Hin HL. simpl. unfold buyX_segment. unfold_method.
  rewrite (getCurrentRange_single_in _ _ _ _ _ Hin).
  rewrite (getLiquidityInCurrentRange_single_in _ _ _ _ _ Hin).
  rewrite decide_False by done. simpl.
  by rewrite (addFeesToPositions_single _ _ _ _ _ _ _ _ Hin).
Qed.

Lemma buyY_segment_single_out k position p f s :
  inRange DOWN p (sqrtRange position) = false →
  buyY_segment s (single k position p f) = (single k position p f, Throw OutOfRange).
Proof.
  intros H. destruct s as [dY dX]. unfold buyY_segment. unfold_method.
  by rewrite getCurrentRange_single_out.
Qed.

Lemma buyX_segment_single_out k position p f s :
  inRange UP p (sqrtRange position) = false →
  buyX_segment s (single k position p f) = (single k position p f, Throw OutOfRange).
Proof.
  intros H. destruct s as [dX dY]. unfold buyX_segment. unfold_method.
  by rewrite getCurrentRange_single_out.
Qed.

Lemma while_S_Return {L : Type} fuel (test : L → bool) body s pool s1 pool1 :
  test s = true → body s pool = (pool1, Return s1) →
  while (S fuel) test body s pool = while fuel test body s1 pool1.
Proof. intros Ht Hb. simpl. rewrite Ht. unfold mbind, Method_bind. by rewrite Hb. Qed.

Lemma while_S_Throw {L : Type} fuel (test : L → bool) body s pool e pool1 :
  test s = true → body s pool = (pool1, Throw e) →
  while (S fuel) test body s pool = (pool1, Throw e).
Proof. intros Ht Hb. simpl. rewrite Ht. unfold mbind, Method_bind. by rewrite Hb. Qed.

Lemma balance_in_range (position : Position) (p : Qc) :
  (sqrtRange position).1 ≤ p → p ≤ (sqrtRange position).2 →
  balance p position
  = {| x := liquidity position / p - liquidity position / (sqrtRange position).2;
       y := liquidity position * p - liquidity position * (sqrtRange position).1 |}.
Proof.
  intros H1 H2. unfold balance, getTokenAmounts.
  rewrite decide_False by by apply Qcle_not_lt.
  by rewrite decide_False by by apply Qcle_not_lt.
Qed.

(** C6, as the code has it. A pool holds a single position, of positive
    liquidity, whose range [0 < lo < hi] has the price strictly inside.
    [buyY] of more Y than the position holds, and [buyX] of more X than
    the position holds (and less than [liquidity / sqrtPrice]), run one
    segment to the boundary and then throw: the error is the out-of-range
    error of [getCurrentRange], and the price stays at the boundary. *)
Theorem overbuy_single_position_out_of_range (fuel : nat) (k : string)
    (position : Position) (p f a : Qc) :
  0 < liquidity position →
  0 < (sqrtRange position).1 →
  (sqrtRange position).1 < p →
  p < (sqrtRange position).2 →
  (y (balance p position) < a →
     ∃ pool', buyY (S (S fuel)) a (single k position p f) = (pool', Throw OutOfRange)
              ∧ sqrtPrice pool' = (sqrtRange position).1)
  ∧ (x (balance p position) < a → a < liquidity position / p →
     ∃ pool', buyX (S (S fuel)) a (single k position p f) = (pool', Throw OutOfRange)
              ∧ sqrtPrice pool' = (sqrtRange position).2).
Proof.
  intros HL Hlo Hlop Hphi.
  rewrite balance_in_range by by apply Qclt_le_weak.
  destruct position as [i [lo hi] L b0 rw]. simpl in *.
  assert (HL0 : L ≠ 0) by by apply Qc_pos_neq_0.
  split.
  - intros Ha.
    assert (Ha0 : ¬ a ≤ 0) by (intros ?; qc_nra).
    assert (Hd : Math_max (- a / L) (lo - p) = lo - p).
    { apply Math_max_r. assert (E := Qc_div_mult (- a) L HL0).
      revert E. generalize (- a / L). intros r E. qc_nra. }
    unfold buyY. rewrite decide_False by done. unfold mbind at 1. unfold Method_bind.
    erewrite while_S_Return;
      [| unfold buyY_test; apply bool_decide_eq_true; qc_lra
       | apply buyY_segment_single;
         [apply inRange_DOWN; simpl; split; [done | by apply Qclt_le_weak] | done]].
    simpl liquidity; simpl sqrtRange; simpl fst. rewrite Hd.
    assert (Hp' : p + (lo - p) = lo) by ring. rewrite Hp'.
    erewrite (while_S_Throw fuel buyY_test buyY_segment _ _ OutOfRange
                (single k _ lo f)).
    + eexists. split; [reflexivity | done].
    + unfold buyY_test. apply bool_decide_eq_true. qc_nra.
    + apply buyY_segment_single_out, (inRange_DOWN_at_lower (lo, hi)).
  - intros Hx Ha.
    assert (Hp : 0 < p) by by apply Qclt_trans with lo.
    assert (Hhi : 0 < hi) by by apply Qclt_trans with p.
    assert (Hp0 : p ≠ 0) by by apply Qc_pos_neq_0.
    assert (Hhi0 : hi ≠ 0) by by apply Qc_pos_neq_0.
    assert (Hap : a * p < L).
    { assert (E := Qc_div_mult L p Hp0). revert Ha E.
      generalize (L / p). intros q Ha E. qc_nra. }
    assert (Hahi : L * hi - L * p < a * p * hi).
    { assert (E1 := Qc_div_mult L p Hp0). assert (E2 := Qc_div_mult L hi Hhi0).
      revert Hx E1 E2. generalize (L / p) (L / hi). intros q1 q2 Hx E1 E2.
      assert (0 < p * hi) by by apply Qcmult_pos_pos.
      assert ((q1 - q2) * (p * hi) < a * (p * hi))
        by by apply Qcmult_lt_compat_r.
      qc_nra. }
    assert (Ha0 : ¬ a ≤ 0).
    { intros ?. assert (0 < L * (hi - p)) by (apply Qcmult_pos_pos; [done | qc_lra]).
      assert (a * (p * hi) ≤ 0 * (p * hi)).
      { apply Qcmult_le_compat_r; [done |].
        apply Qclt_le_weak. by apply Qcmult_pos_pos. }
      qc_nra. }
    set (pool := single k {| id := i; sqrtRange := (lo, hi); liquidity := L;
                             initialBalance := b0; rewards := rw |} p f).
    assert (Hg : getDSqrtPrice pool (- a / L) = a * p * p / (L - a * p)).
    { unfold getDSqrtPrice. simpl. qc_field. }
    assert (Hd : Math_min (getDSqrtPrice pool (- a / L)) (hi - p) = hi - p).
    { apply Math_min_r. rewrite Hg.
      assert (HD : L - a * p ≠ 0) by (intros E; qc_lra).
      assert (E := Qc_div_mult (a * p * p) (L - a * p) HD). revert E.
      generalize (a * p * p / (L - a * p)). intros g E. qc_nra. }
    assert (Hx' : L * getDInvSqrtPrice pool (hi - p) = - ((L * hi - L * p) / (p * hi))).
    { unfold getDInvSqrtPrice. simpl. qc_field. }
    assert (Hlt : (L * hi - L * p) / (p * hi) < a).
    { assert (Hphi0 : p * hi ≠ 0) by by apply Qc_pos_neq_0, Qcmult_pos_pos.
      assert (E := Qc_div_mult (L * hi - L * p) (p * hi) Hphi0). revert E.
      generalize ((L * hi - L * p) / (p * hi)). intros q E.
      apply Qcnot_le_lt. intros Hle.
      assert (a * (p * hi) ≤ q * (p * hi)).
      { apply Qcmult_le_compat_r; [done |].
        apply Qclt_le_weak. by apply Qcmult_pos_pos. }
      qc_nra. }
    unfold buyX. rewrite decide_False by done. unfold mbind at 1. unfold Method_bind.
    erewrite while_S_Return;
      [| unfold buyX_test; apply bool_decide_eq_true; qc_lra
       | apply buyX_segment_single;
         [apply inRange_UP; simpl; split; [by apply Qclt_le_weak | done] | done]].
    simpl liquidity; simpl sqrtRange; simpl snd. fold pool. rewrite Hd, Hx'.
    assert (Hp' : p + (hi - p) = hi) by ring. rewrite Hp'.
    erewrite (while_S_Throw fuel buyX_test buyX_segment _ _ OutOfRange
                (single k _ hi f)).
    + eexists. split; [reflexivity | done].
    + unfold buyX_test. apply bool_decide_eq_true. qc_lra.
    + apply buyX_segment_single_out, (inRange_UP_at_upper (lo, hi)).
Qed.

(** ** The split of a fee *)

Lemma values_addFeesToPositions fees total token dir pool :
  values (addFeesToPositions fees total token dir pool)
  = (λ position,
       if inRange dir (sqrtPrice pool) (sqrtRange position)
       then addFee fees total token position else position) <$> values pool.
Proof.
  unfold values, addFeesToPositions, set_positions. simpl.
  rewrite map_to_list_fmap, <- !list_fmap_compose.
  apply list_fmap_ext. by intros i [k position] _.
Qed.

(** [addFeesToPositions] leaves a position that is not in range as it is. *)
Lemma addFeesToPositions_out_of_range fees total token dir pool k position :
  positions pool !! k = Some position →
  inRange dir (sqrtPrice pool) (sqrtRange position) = false →
  positions (addFeesToPositions fees total token dir pool) !! k = Some position.
Proof.
  intros Hk Hout. unfold addFeesToPositions, set_positions. simpl.
  by rewrite lookup_fmap, Hk; simpl; rewrite Hout.
Qed.

(** [addFeesToPositions] pays [liquidity / total * fees] to a position in
    range, in the token of the fee. *)
Lemma addFeesToPositions_in_range fees total token dir pool k position :
  positions pool !! k = Some position →
  inRange dir (sqrtPrice pool) (sqrtRange position) = true →
  positions (addFeesToPositions fees total token dir pool) !! k
  = Some (addFee fees total token position).
Proof.
  intros Hk Hin. unfold addFeesToPositions, set_positions. simpl.
  by rewrite lookup_fmap, Hk; simpl; rewrite Hin.
Qed.

Lemma Qcsum_addFee (f : Balance → Qc) (g : Position → Position) (share : Position → Qc)
    (test : Position → bool) (l : list Position) :
  (∀ position, f (rewards (g position)) = f (rewards position) + share position) →
  Qcsum ((λ position, f (rewards (if test position then g position else position)))
           <$> l)
  = Qcsum ((λ position, f (rewards position)) <$> l)
    + Qcsum (share <$> filter (λ position, test position) l).
Proof.
  intros Hg. induction l as [| position l IH]; csimpl.
  - ring.
  - rewrite IH, filter_cons. destruct (test position) eqn:E.
    + rewrite decide_True by exact I. csimpl. rewrite Hg. ring.
    + rewrite decide_False by (intros []). ring.
Qed.

Lemma Qcsum_scale (c : Qc) (l : list Position) :
  Qcsum ((λ position, liquidity position * c) <$> l)
  = Qcsum (liquidity <$> l) * c.
Proof. induction l as [| position l IH]; csimpl; [ring | rewrite IH; ring]. Qed.

(** In all, [addFeesToPositions] pays the fee times the part of [total]
    that the liquidity in range makes up, in the token of the fee, and
    nothing in the other token. *)
Lemma total_rewards_addFeesToPositions fees total token dir pool :
  total_rewards (addFeesToPositions fees total token dir pool)
  = let paid := getLiquidityInCurrentRange dir pool * (/ total * fees) in
    match token with
    | TokenX => {| x := x (total_rewards pool) + paid; y := y (total_rewards pool) |}
    | TokenY => {| x := x (total_rewards pool); y := y (total_rewards pool) + paid |}
    end.
Proof.
  unfold total_rewards. rewrite values_addFeesToPositions.
  rewrite <- !list_fmap_compose. unfold compose.
  rewrite getLiquidityInCurrentRange_Qcsum. unfold getPositionsInRange.
  rewrite <- Qcsum_scale.
  set (test := λ position : Position,
                inRange dir (sqrtPrice pool) (sqrtRange position)).
  assert (Hzero : ∀ l : list Position, Qcsum ((λ _, 0) <$> l) = 0).
  { induction l as [| ? l IH]; csimpl; [done | rewrite IH; ring]. }
  destruct token; simpl; f_equal.
  - apply (Qcsum_addFee x (addFee fees total TokenX)
             (λ position, liquidity position * (/ total * fees)) test).
    intros. simpl. unfold Qcdiv. ring.
  - rewrite (Qcsum_addFee y (addFee fees total TokenX) (λ _, 0) test);
      [| intros; simpl; ring].
    rewrite Hzero. ring.
  - rewrite (Qcsum_addFee x (addFee fees total TokenY) (λ _, 0) test);
      [| intros; simpl; ring].
    rewrite Hzero. ring.
  - apply (Qcsum_addFee y (addFee fees total TokenY)
             (λ position, liquidity position * (/ total * fees)) test).
    intros. simpl. unfold Qcdiv. ring.
Qed.

Lemma while_done {L : Type} fuel (test : L → bool) body s pool :
  test s = false → while fuel test body s pool = (pool, Return s).
Proof. intros Ht. destruct fuel; simpl; by rewrite Ht. Qed.

(** A sale of Y that fits in the current range is one segment, and pays
    the positions [yWithFees * feeRate] in Y in all and nothing in X. *)
Lemma sellY_one_segment_fees (fuel : nat) (a : Qc) (pool : Pool) (r : Range) :
  0 < a → feeRate pool < 1 →
  getCurrentRange UP pool = Return r →
  getLiquidityInCurrentRange UP pool ≠ 0 →
  (a - a * feeRate pool) / getLiquidityInCurrentRange UP pool
    ≤ r.2 - sqrtPrice pool →
  ∃ pool' out,
    sellY (S fuel) a pool = (pool', Return out)
    ∧ total_rewards pool'
      = {| x := x (total_rewards pool);
           y := y (total_rewards pool) + a * feeRate pool |}.
Proof.
  intros Ha Hf Hr HL Hfit.
  assert (HdY : 0 < a - a * feeRate pool) by qc_nra.
  assert (HdY0 : a - a * feeRate pool ≠ 0) by by apply Qc_pos_neq_0.
  unfold sellY. rewrite decide_False by by apply Qclt_not_le.
  unfold mbind at 1. unfold Method_bind at 1. unfold this_pool at 1.
  unfold mbind at 1. unfold Method_bind at 1.
  erewrite while_S_Return; [| by apply bool_decide_eq_true |].
  2: { unfold sellY_segment. unfold_method. rewrite Hr.
       rewrite decide_False by done. rewrite Math_min_l by done. reflexivity. }
  rewrite while_done.
  2: { unfold sellY_test. apply bool_decide_eq_false.
       assert (a - a * feeRate pool
               - (a - a * feeRate pool) / getLiquidityInCurrentRange UP pool
                 * getLiquidityInCurrentRange UP pool = 0) as -> by qc_field.
       intros H. by apply Qclt_not_eq in H. }
  eexists _, _. split; [reflexivity |].
  change (total_rewards (set_sqrtPrice ?v ?pool1)) with (total_rewards pool1).
  rewrite total_rewards_addFeesToPositions. simpl. f_equal. f_equal. qc_field.
Qed.

(** The same for a sale of X, on a pool at a price above 0 whose
    liquidity in range is above 0. *)
Lemma sellX_one_segment_fees (fuel : nat) (a : Qc) (pool : Pool) (r : Range) :
  0 < a → feeRate pool < 1 → 0 < sqrtPrice pool →
  getCurrentRange DOWN pool = Return r →
  0 < getLiquidityInCurrentRange DOWN pool →
  r.1 - sqrtPrice pool
    ≤ getDSqrtPrice pool
        ((a - a * feeRate pool) / getLiquidityInCurrentRange DOWN pool) →
  ∃ pool' out,
    sellX (S fuel) a pool = (pool', Return out)
    ∧ total_rewards pool'
      = {| x := x (total_rewards pool) + a * feeRate pool;
           y := y (total_rewards pool) |}.
Proof.
  intros Ha Hf Hp Hr HL Hfit.
  set (L := getLiquidityInCurrentRange DOWN pool) in *.
  assert (HL0 : L ≠ 0) by by apply Qc_pos_neq_0.
  assert (HdX : 0 < a - a * feeRate pool) by qc_nra.
  assert (HdX0 : a - a * feeRate pool ≠ 0) by by apply Qc_pos_neq_0.
  assert (Hu : 0 < (a - a * feeRate pool) / L) by by apply Qcdiv_pos.
  assert (Hback : L * getDInvSqrtPrice pool
                        (getDSqrtPrice pool ((a - a * feeRate pool) / L))
                  = a - a * feeRate pool).
  { rewrite getDInvSqrtPrice_getDSqrtPrice;
      [by rewrite Qcmult_comm; apply Qc_div_mult | done |].
    apply Qc_pos_neq_0. revert Hu. generalize ((a - a * feeRate pool) / L).
    intros u Hu. qc_nra. }
  unfold sellX. rewrite decide_False by by apply Qclt_not_le.
  unfold mbind at 1. unfold Method_bind at 1. unfold this_pool at 1.
  unfold mbind at 1. unfold Method_bind at 1.
  erewrite while_S_Return; [| by apply bool_decide_eq_true |].
  2: { unfold sellX_segment. unfold_method. rewrite Hr. fold L.
       rewrite decide_False by done. rewrite Math_max_l by done.
       rewrite Hback. reflexivity. }
  rewrite while_done.
  2: { unfold sellX_test. apply bool_decide_eq_false.
       assert (a - a * feeRate pool - (a - a * feeRate pool) = 0) as -> by ring.
       intros H. by apply Qclt_not_eq in H. }
  eexists _, _. split; [reflexivity |].
  change (total_rewards (set_sqrtPrice ?v ?pool1)) with (total_rewards pool1).
  rewrite total_rewards_addFeesToPositions. simpl. fold L. f_equal. f_equal.
  qc_field.
Qed.

(** ** Rewards under trades on a pool of the data model *)

Lemma grown_refl pool : grown pool pool.
Proof.
  split; [done |]. intros k. destruct (positions pool !! k); [| done].
  repeat split; apply Qcle_refl.
Qed.

Lemma grown_trans pool1 pool2 pool3 :
  grown pool1 pool2 → grown pool2 pool3 → grown pool1 pool3.
Proof.
  intros [Hf1 H1] [Hf2 H2]. split; [congruence |]. intros k.
  specialize (H1 k). specialize (H2 k).
  destruct (positions pool1 !! k), (positions pool2 !! k),
    (positions pool3 !! k); try done.
  destruct H1 as (E1 & E2 & ? & ?), H2 as (E3 & E4 & ? & ?).
  repeat split; [congruence | congruence | |]; eapply Qcle_trans; eauto.
Qed.

Lemma grown_valid pool pool' : grown pool pool' → valid pool → valid pool'.
Proof.
  intros [Hf H] (Hf0 & Hf1 & Hv). unfold valid. rewrite Hf.
  split; [done |]. split; [done |]. intros k position' Hk.
  specialize (H k). rewrite Hk in H.
  destruct (positions pool !! k) as [position |] eqn:E; [| done].
  destruct H as (-> & -> & _). by apply (Hv k).
Qed.

Lemma grown_set_sqrtPrice v pool : grown pool (set_sqrtPrice v pool).
Proof. exact (grown_refl pool). Qed.

Lemma grown_addFeesToPositions fees total token dir pool :
  valid pool → 0 < total → 0 ≤ fees →
  grown pool (addFeesToPositions fees total token dir pool).
Proof.
  intros (_ & _ & Hv) Ht Hfees. split; [done |]. intros k.
  unfold addFeesToPositions, set_positions. simpl. rewrite lookup_fmap.
  destruct (positions pool !! k) as [position |] eqn:E; [| done]. simpl.
  destruct (inRange _ _ _); [| repeat split; apply Qcle_refl].
  assert (0 ≤ liquidity position / total * fees).
  { apply Qcmult_nonneg_nonneg; [| done].
    apply Qcmult_nonneg_nonneg; [by apply (Hv k) |].
    by apply Qclt_le_weak, Qcinv_pos. }
  destruct token; simpl; repeat split; try apply Qcle_refl; qc_lra.
Qed.

Lemma Qcsum_nonneg (l : list Qc) : Forall (λ a, 0 ≤ a) l → 0 ≤ Qcsum l.
Proof.
  induction 1; simpl; [apply Qcle_refl | by apply Qcplus_nonneg_nonneg].
Qed.

Lemma getLiquidityInCurrentRange_pos dir pool :
  valid pool → getLiquidityInCurrentRange dir pool ≠ 0 →
  0 < getLiquidityInCurrentRange dir pool.
Proof.
  intros (_ & _ & Hv) HL.
  assert (0 ≤ getLiquidityInCurrentRange dir pool).
  { rewrite getLiquidityInCurrentRange_Qcsum. apply Qcsum_nonneg.
    apply Forall_fmap, Forall_forall. intros position Hin.
    apply elem_of_getPositionsInRange in Hin as [Hin _].
    apply elem_of_values in Hin as [k Hk]. by apply (Hv k). }
  destruct (Qcle_lt_or_eq _ _ H); [done | by destruct HL].
Qed.

(** The current range of a pool of the data model has the price in it,
    in the sense of the direction, and lies above 0. *)
Lemma getCurrentRange_covers dir pool r :
  valid pool → getCurrentRange dir pool = Return r →
  covers dir (sqrtPrice pool) r ∧ 0 < r.1.
Proof.
  intros (_ & _ & Hv) Hr.
  destruct (getCurrentRange_cases dir pool) as [[_ E] | (r' & E & H)];
    rewrite E in Hr; [discriminate |]. injection Hr as ->.
  destruct H as ((a & Ha & E1) & _ & (b & Hb & E2) & _).
  apply list_elem_of_fmap in Ha as (pa & -> & Ha).
  apply list_elem_of_fmap in Hb as (pb & -> & Hb).
  apply elem_of_getPositionsInRange in Ha as [Ha Hca].
  apply elem_of_getPositionsInRange in Hb as [_ Hcb].
  apply elem_of_values in Ha as [k Hk]. destruct (Hv k _ Hk) as [_ Hpos].
  rewrite <- E1. split; [| done].
  destruct dir; simpl in *; rewrite <- E1, <- E2; tauto.
Qed.

Lemma while_invariant {L : Type} (P : Pool → Prop) fuel (test : L → bool) body s pool :
  (∀ s pool, test s = true → P pool → P (body s pool).1) →
  P pool → P (while fuel test body s pool).1.
Proof.
  intros Hbody. revert s pool. induction fuel as [| fuel IH]; intros s pool HP;
    simpl; destruct (test s) eqn:Ht; try done.
  unfold mbind, Method_bind. specialize (Hbody s pool Ht HP).
  destruct (body s pool) as [pool1 [s1 | e1 |]]; simpl in *; auto.
Qed.

(** The fee added on top of a payment [v]. *)
Lemma fee_on_top_nonneg (v f : Qc) : 0 ≤ v → 0 ≤ f → f < 1 → 0 ≤ v / (1 - f) - v.
Proof.
  intros Hv Hf0 Hf1.
  assert (H1f : 0 < 1 - f) by qc_lra.
  assert (Hq := Qcdiv_nonneg v (1 - f) Hv H1f).
  assert (E := Qc_div_mult v (1 - f) (Qc_pos_neq_0 _ H1f)).
  revert Hq E. generalize (v / (1 - f)). intros q Hq E. qc_nra.
Qed.

(** The X that a step down of the price brings in. *)
Lemma getDInvSqrtPrice_nonneg (pool : Pool) (d : Qc) :
  0 < sqrtPrice pool → 0 < sqrtPrice pool + d → d ≤ 0 →
  0 ≤ getDInvSqrtPrice pool d.
Proof.
  intros Hp Hpd Hd. unfold getDInvSqrtPrice. apply Qcdiv_nonneg; [qc_lra |].
  rewrite Qcpower_2. qc_nra.
Qed.

Lemma sellY_segment_grown fees s pool :
  0 ≤ fees → sellY_test s = true → valid pool →
  grown pool (sellY_segment fees s pool).1.
Proof.
  destruct s as [dY dX]. intros Hfees Ht Hv.
  apply bool_decide_eq_true in Ht.
  unfold sellY_segment. unfold_method.
  destruct (getCurrentRange UP pool) as [r | |] eqn:Hr; simpl;
    try apply grown_refl.
  destruct (decide _) as [| HL]; simpl; [apply grown_refl |].
  apply (getLiquidityInCurrentRange_pos _ _ Hv) in HL.
  destruct (getCurrentRange_covers _ _ _ Hv Hr) as [[Hlo Hhi] Hpos]. simpl in *.
  eapply grown_trans; [| apply grown_set_sqrtPrice].
  apply grown_addFeesToPositions; [done | done |].
  apply Qcdiv_nonneg; [| done]. apply Qcmult_nonneg_nonneg; [done |].
  apply Qcmult_nonneg_nonneg; [| by apply Qclt_le_weak].
  destruct (Math_min_cases (dY / getLiquidityInCurrentRange UP pool)
              (r.2 - sqrtPrice pool)) as [[-> _] | [-> _]].
  - by apply Qclt_le_weak, Qcdiv_pos.
  - qc_lra.
Qed.

Lemma buyY_segment_grown s pool :
  buyY_test s = true → valid pool → grown pool (buyY_segment s pool).1.
Proof.
  destruct s as [dY dX]. intros Ht Hv.
  apply bool_decide_eq_true in Ht.
  unfold buyY_segment. unfold_method.
  destruct (getCurrentRange DOWN pool) as [r | |] eqn:Hr; simpl;
    try apply grown_refl.
  destruct (decide _) as [| HL]; simpl; [apply grown_refl |].
  apply (getLiquidityInCurrentRange_pos _ _ Hv) in HL.
  destruct (getCurrentRange_covers _ _ _ Hv Hr) as [[Hlo Hhi] Hpos]. simpl in *.
  destruct Hv as (Hf0 & Hf1 & Hv').
  eapply grown_trans; [| apply grown_set_sqrtPrice].
  apply grown_addFeesToPositions; [done | done |].
  apply fee_on_top_nonneg; [| done | done].
  apply Qcmult_nonneg_nonneg; [by apply Qclt_le_weak |].
  set (L := getLiquidityInCurrentRange DOWN pool) in *.
  assert (Hq : dY / L ≤ 0).
  { assert (0 ≤ - dY / L) by (apply Qcdiv_nonneg; [qc_lra | done]).
    assert (- dY / L = - (dY / L)) as E by (unfold Qcdiv; ring).
    rewrite E in H. qc_lra. }
  destruct (Math_max_cases (dY / L) (r.1 - sqrtPrice pool)) as [[-> H1] | [-> H1]];
    apply getDInvSqrtPrice_nonneg; qc_lra.
Qed.

Lemma getDSqrtPrice_nonpos (pool : Pool) (u : Qc) :
  0 < sqrtPrice pool → 0 ≤ u → getDSqrtPrice pool u ≤ 0.
Proof.
  intros Hp Hu. unfold getDSqrtPrice.
  assert (H : 0 ≤ sqrtPrice pool ^ 2 / (1 + u * sqrtPrice pool)).
  { apply Qcdiv_nonneg; [rewrite Qcpower_2; qc_nra | qc_nra]. }
  revert H. generalize (sqrtPrice pool ^ 2 / (1 + u * sqrtPrice pool)).
  intros q H. qc_nra.
Qed.

Lemma sellX_segment_grown fees s pool :
  0 ≤ fees → sellX_test s = true → valid pool →
  grown pool (sellX_segment fees s pool).1.
Proof.
  destruct s as [dX dY]. intros Hfees Ht Hv.
  apply bool_decide_eq_true in Ht.
  unfold sellX_segment. unfold_method.
  destruct (getCurrentRange DOWN pool) as [r | |] eqn:Hr; simpl;
    try apply grown_refl.
  destruct (decide _) as [| HL]; simpl; [apply grown_refl |].
  apply (getLiquidityInCurrentRange_pos _ _ Hv) in HL.
  destruct (getCurrentRange_covers _ _ _ Hv Hr) as [[Hlo Hhi] Hpos]. simpl in *.
  eapply grown_trans; [| apply grown_set_sqrtPrice].
  apply grown_addFeesToPositions; [done | done |].
  apply Qcdiv_nonneg; [| done]. apply Qcmult_nonneg_nonneg; [done |].
  apply Qcmult_nonneg_nonneg; [by apply Qclt_le_weak |].
  set (L := getLiquidityInCurrentRange DOWN pool) in *.
  assert (Hp : 0 < sqrtPrice pool) by qc_lra.
  assert (Hg : getDSqrtPrice pool (dX / L) ≤ 0).
  { apply getDSqrtPrice_nonpos; [done |]. by apply Qclt_le_weak, Qcdiv_pos. }
  destruct (Math_max_cases (getDSqrtPrice pool (dX / L)) (r.1 - sqrtPrice pool))
    as [[-> H1] | [-> H1]];
    apply getDInvSqrtPrice_nonneg; qc_lra.
Qed.

Lemma movePrice_segment_grown target s pool :
  movePrice_test s = true → valid pool →
  grown pool (movePrice_segment target s pool).1.
Proof.
  destruct s as [[d dX] dY]. intros Ht Hv.
  apply bool_decide_eq_true in Ht.
  unfold movePrice_segment. unfold_method.
  destruct (getCurrentRange _ pool) as [r | |] eqn:Hr; simpl;
    try apply grown_refl.
  destruct (decide (_ = 0)) as [| HL]; simpl; [apply grown_refl |].
  apply (getLiquidityInCurrentRange_pos _ _ Hv) in HL.
  destruct (getCurrentRange_covers _ _ _ Hv Hr) as [Hc Hpos].
  assert (Hv' := Hv). destruct Hv' as (Hf0 & Hf1 & _).
  assert (Hrate : 0 ≤ 1 / (1 - feeRate pool) - 1)
    by (apply fee_on_top_nonneg; [qc_lra | done | done]).
  eapply grown_trans; [| apply grown_set_sqrtPrice].
  apply grown_addFeesToPositions; [done | done |].
  apply Qcmult_nonneg_nonneg; [| done].
  destruct (decide (d < 0)) as [Hneg | Hnneg].
  - destruct (decide (0 < d)) as [Hposd |]; [exfalso; qc_lra |].
    destruct Hc as [Hlo Hhi]. simpl in *.
    apply Qcmult_nonneg_nonneg; [by apply Qclt_le_weak |].
    destruct (Math_max_cases r.1 (sqrtPrice pool + d)) as [[-> H1] | [-> H1]];
      apply getDInvSqrtPrice_nonneg; qc_lra.
  - assert (Hposd : 0 < d).
    { apply Qcnot_lt_le in Hnneg.
      destruct (Qcle_lt_or_eq _ _ Hnneg); [done | by destruct Ht]. }
    destruct (decide (0 < d)); [| done].
    destruct Hc as [Hlo Hhi]. simpl in *.
    apply Qcmult_nonneg_nonneg; [by apply Qclt_le_weak |].
    destruct (Math_min_cases r.2 (sqrtPrice pool + d)) as [[-> H1] | [-> H1]];
      qc_lra.
Qed.

(** On a pool of the data model, [sellY], [buyY], [sellX] and [movePrice]
    leave every position in the map with rewards that are not smaller,
    however the call ends. *)
Lemma rewards_grow_under_sellY_buyY_sellX_movePrice (Math_sqrt : Qc → Qc)
    (fuel : nat) (a : Qc)
    (pool : Pool) :
  valid pool →
  grown pool (sellY fuel a pool).1
  ∧ grown pool (buyY fuel a pool).1
  ∧ grown pool (sellX fuel a pool).1
  ∧ grown pool (movePrice Math_sqrt fuel a pool).1.
Proof.
  intros Hv.
  assert (Hloop : ∀ (L : Type) (test : L → bool) body s,
            (∀ s pool, test s = true → valid pool → grown pool (body s pool).1) →
            grown pool (while fuel test body s pool).1).
  { intros L test body s Hbody.
    apply (while_invariant (λ pool', valid pool' ∧ grown pool pool')).
    - intros s' pool' Ht [Hv' Hg]. specialize (Hbody s' pool' Ht Hv').
      split; [by eapply grown_valid | by eapply grown_trans].
    - split; [done | apply grown_refl]. }
  destruct (Hv) as (Hf0 & _).
  split; [| split; [| split]].
  - unfold sellY. destruct (decide (a ≤ 0)) as [| Ha]; [apply grown_refl |].
    apply Qcnot_le_lt in Ha.
    assert (Hfees : 0 ≤ a * feeRate pool)
      by (apply Qcmult_nonneg_nonneg; [by apply Qclt_le_weak | done]).
    pose proof (Hloop _ sellY_test (sellY_segment (a * feeRate pool))
                  (a - a * feeRate pool, 0)
                  (λ s pool', sellY_segment_grown _ s pool' Hfees)) as Hg.
    unfold_method. simpl.
    by destruct (while _ _ _ _ _) as [pool1 [[dY dX] | e1 |]].
  - unfold buyY. destruct (decide (a ≤ 0)); [apply grown_refl |].
    pose proof (Hloop _ buyY_test buyY_segment (- a, 0) buyY_segment_grown) as Hg.
    unfold_method. simpl.
    by destruct (while _ _ _ _ _) as [pool1 [[dY dX] | e1 |]].
  - unfold sellX. destruct (decide (a ≤ 0)) as [| Ha]; [apply grown_refl |].
    apply Qcnot_le_lt in Ha.
    assert (Hfees : 0 ≤ a * feeRate pool)
      by (apply Qcmult_nonneg_nonneg; [by apply Qclt_le_weak | done]).
    pose proof (Hloop _ sellX_test (sellX_segment (a * feeRate pool))
                  (a - a * feeRate pool, 0)
                  (λ s pool', sellX_segment_grown _ s pool' Hfees)) as Hg.
    unfold_method. simpl.
    by destruct (while _ _ _ _ _) as [pool1 [[dX dY] | e1 |]].
  - unfold movePrice. unfold_method. simpl.
    destruct (decide _); [apply grown_refl |].
    pose proof (Hloop _ movePrice_test (movePrice_segment (Math_sqrt a))
                  (Math_sqrt a - sqrtPrice pool, 0, 0)
                  (movePrice_segment_grown _)) as Hg.
    by destruct (while _ _ _ _ _) as [pool1 [[[d dX] dY] | e1 |]].
Qed.

(** * Further properties of the code *)

(** ** Rejected calls *)

(** X1. The four trades reject an amount that is 0 or negative before
    anything else: the sales throw "Can't sell a negative amount", the
    purchases "Can't buy a negative amount", and the pool is left as it was,
    whatever it holds. *)
Theorem nonpositive_amount_rejected (fuel : nat) (a : Qc) (pool : Pool) :
  a ≤ 0 →
  sellY fuel a pool = (pool, Throw CantSellNegative)
  ∧ sellX fuel a pool = (pool, Throw CantSellNegative)
  ∧ buyY fuel a pool = (pool, Throw CantBuyNegative)
  ∧ buyX fuel a pool = (pool, Throw CantBuyNegative).
Proof.
  intros Ha. unfold sellY, sellX, buyY, buyX.
  rewrite !decide_True by done. done.
Qed.

(** The two checks of a segment, on the positions in range for [dir]. *)
Lemma segment_checks dir pool :
  (getPositionsInRange dir pool = [] →
     getCurrentRange dir pool = Throw OutOfRange)
  ∧ (getPositionsInRange dir pool ≠ [] →
     ∃ r, getCurrentRange dir pool = Return r).
Proof.
  destruct (getCurrentRange_cases dir pool) as [[Hnil ->] | (r & -> & H)].
  - split; [done | by intros []].
  - split; [| by eauto]. intros Hnil. rewrite Hnil in H.
    destruct H as ((a & Ha & _) & _). by apply not_elem_of_nil in Ha.
Qed.

Lemma sellY_first_segment fuel a pool e :
  0 < a → feeRate pool < 1 →
  (∀ s, sellY_segment (a * feeRate pool) s pool = (pool, Throw e)) →
  sellY (S fuel) a pool = (pool, Throw e).
Proof.
  intros Ha Hf Hseg. unfold sellY. rewrite decide_False by by apply Qclt_not_le.
  unfold mbind at 1. unfold Method_bind at 1. unfold this_pool at 1.
  unfold mbind at 1. unfold Method_bind at 1.
  rewrite (while_S_Throw _ _ _ _ _ e pool); [done | | apply Hseg].
  apply bool_decide_eq_true. qc_nra.
Qed.

Lemma sellX_first_segment fuel a pool e :
  0 < a → feeRate pool < 1 →
  (∀ s, sellX_segment (a * feeRate pool) s pool = (pool, Throw e)) →
  sellX (S fuel) a pool = (pool, Throw e).
Proof.
  intros Ha Hf Hseg. unfold sellX. rewrite decide_False by by apply Qclt_not_le.
  unfold mbind at 1. unfold Method_bind at 1. unfold this_pool at 1.
  unfold mbind at 1. unfold Method_bind at 1.
  rewrite (while_S_Throw _ _ _ _ _ e pool); [done | | apply Hseg].
  apply bool_decide_eq_true. qc_nra.
Qed.

Lemma buyY_first_segment fuel a pool e :
  0 < a →
  (∀ s, buyY_segment s pool = (pool, Throw e)) →
  buyY (S fuel) a pool = (pool, Throw e).
Proof.
  intros Ha Hseg. unfold buyY. rewrite decide_False by by apply Qclt_not_le.
  unfold mbind at 1. unfold Method_bind at 1.
  rewrite (while_S_Throw _ _ _ _ _ e pool); [done | | apply Hseg].
  apply bool_decide_eq_true. qc_lra.
Qed.

Lemma buyX_first_segment fuel a pool e :
  0 < a →
  (∀ s, buyX_segment s pool = (pool, Throw e)) →
  buyX (S fuel) a pool = (pool, Throw e).
Proof.
  intros Ha Hseg. unfold buyX. rewrite decide_False by by apply Qclt_not_le.
  unfold mbind at 1. unfold Method_bind at 1.
  rewrite (while_S_Throw _ _ _ _ _ e pool); [done | | apply Hseg].
  apply bool_decide_eq_true. qc_lra.
Qed.

(** X2. A trade of a positive amount on a pool that has no position in
    range for its direction (upward for [sellY] and [buyX], downward for
    [buyY] and [sellX]; an empty pool is the extreme case) throws the
    out-of-range error in its first segment and leaves the pool as it was.
    For the sales the fee rate has to be below 1, for otherwise nothing is
    left to trade and no segment is run. *)
Theorem no_position_in_range_throws (fuel : nat) (a : Qc) (pool : Pool) :
  0 < a →
  (getPositionsInRange UP pool = [] →
     (feeRate pool < 1 → sellY (S fuel) a pool = (pool, Throw OutOfRange))
     ∧ buyX (S fuel) a pool = (pool, Throw OutOfRange))
  ∧ (getPositionsInRange DOWN pool = [] →
     (feeRate pool < 1 → sellX (S fuel) a pool = (pool, Throw OutOfRange))
     ∧ buyY (S fuel) a pool = (pool, Throw OutOfRange)).
Proof.
  intros Ha. split; intros Hnil; apply segment_checks in Hnil;
    (split; [intros Hf |]).
  - apply sellY_first_segment; [done | done |]. intros [dY dX].
    unfold sellY_segment. unfold_method. by rewrite Hnil.
  - apply buyX_first_segment; [done |]. intros [dX dY].
    unfold buyX_segment. unfold_method. by rewrite Hnil.
  - apply sellX_first_segment; [done | done |]. intros [dX dY].
    unfold sellX_segment. unfold_method. by rewrite Hnil.
  - apply buyY_first_segment; [done |]. intros [dY dX].
    unfold buyY_segment. unfold_method. by rewrite Hnil.
Qed.

(** X3. When positions are in range for the direction of a trade but
    their liquidity sums to 0, the trade throws "Not enough liquidity." in
    its first segment and leaves the pool as it was. *)
Theorem zero_liquidity_in_range_throws (fuel : nat) (a : Qc) (pool : Pool) :
  0 < a →
  (getPositionsInRange UP pool ≠ [] → getLiquidityInCurrentRange UP pool = 0 →
     (feeRate pool < 1 → sellY (S fuel) a pool = (pool, Throw NotEnoughLiquidity))
     ∧ buyX (S fuel) a pool = (pool, Throw NotEnoughLiquidity))
  ∧ (getPositionsInRange DOWN pool ≠ [] → getLiquidityInCurrentRange DOWN pool = 0 →
     (feeRate pool < 1 → sellX (S fuel) a pool = (pool, Throw NotEnoughLiquidity))
     ∧ buyY (S fuel) a pool = (pool, Throw NotEnoughLiquidity)).
Proof.
  intros Ha. split; intros Hin HL; apply segment_checks in Hin as [r Hr];
    (split; [intros Hf |]).
  - apply sellY_first_segment; [done | done |]. intros [dY dX].
    unfold sellY_segment. unfold_method. rewrite Hr. by rewrite decide_True.
  - apply buyX_first_segment; [done |]. intros [dX dY].
    unfold buyX_segment. unfold_method. rewrite Hr. by rewrite decide_True.
  - apply sellX_first_segment; [done | done |]. intros [dX dY].
    unfold sellX_segment. unfold_method. rewrite Hr. by rewrite decide_True.
  - apply buyY_first_segment; [done |]. intros [dY dX].
    unfold buyY_segment. unfold_method. rewrite Hr. by rewrite decide_True.
Qed.

(** ** What a trade leaves alone *)

Lemma same_deposits_refl pool : same_deposits pool pool.
Proof. split; [done |]. intros k. by destruct (positions pool !! k). Qed.

Lemma same_deposits_trans pool1 pool2 pool3 :
  same_deposits pool1 pool2 → same_deposits pool2 pool3 →
  same_deposits pool1 pool3.
Proof.
  intros [Hf1 H1] [Hf2 H2]. split; [congruence |]. intros k.
  specialize (H1 k). specialize (H2 k).
  destruct (positions pool1 !! k), (positions pool2 !! k),
    (positions pool3 !! k); try done.
  destruct H1 as (? & ? & ? & ?), H2 as (? & ? & ? & ?).
  repeat split; congruence.
Qed.

Lemma same_deposits_addFeesToPositions v fees total token dir pool :
  same_deposits pool (set_sqrtPrice v (addFeesToPositions fees total token dir pool)).
Proof.
  split; [done |]. intros k. simpl. rewrite lookup_fmap.
  destruct (positions pool !! k) as [position |]; [| done]. simpl.
  by destruct (inRange _ _ _).
Qed.

Lemma sellY_segment_one_step fees s pool :
  one_step pool (sellY_segment fees s pool).1.
Proof.
  destruct s as [dY dX]. unfold sellY_segment. unfold_method.
  destruct (getCurrentRange UP pool); simpl; try by left.
  destruct (decide _); simpl; [by left | right; eauto 10].
Qed.

Lemma buyY_segment_one_step s pool : one_step pool (buyY_segment s pool).1.
Proof.
  destruct s as [dY dX]. unfold buyY_segment. unfold_method.
  destruct (getCurrentRange DOWN pool); simpl; try by left.
  destruct (decide _); simpl; [by left | right; eauto 10].
Qed.

Lemma sellX_segment_one_step fees s pool :
  one_step pool (sellX_segment fees s pool).1.
Proof.
  destruct s as [dX dY]. unfold sellX_segment. unfold_method.
  destruct (getCurrentRange DOWN pool); simpl; try by left.
  destruct (decide _); simpl; [by left | right; eauto 10].
Qed.

Lemma buyX_segment_one_step s pool : one_step pool (buyX_segment s pool).1.
Proof.
  destruct s as [dX dY]. unfold buyX_segment. unfold_method.
  destruct (getCurrentRange UP pool); simpl; try by left.
  destruct (decide _); simpl; [by left | right; eauto 10].
Qed.

Lemma movePrice_segment_one_step target s pool :
  one_step pool (movePrice_segment target s pool).1.
Proof.
  destruct s as [[d dX] dY]. unfold movePrice_segment. unfold_method.
  destruct (getCurrentRange _ pool); simpl; try by left.
  destruct (decide (_ = 0)); simpl; [by left | right; eauto 10].
Qed.

Lemma while_same_deposits {L : Type} fuel (test : L → bool) body s pool :
  (∀ s pool, one_step pool (body s pool).1) →
  same_deposits pool (while fuel test body s pool).1.
Proof.
  intros Hbody.
  apply (while_invariant (λ pool', same_deposits pool pool'));
    [| apply same_deposits_refl].
  intros s' pool' _ H. eapply same_deposits_trans; [exact H |].
  destruct (Hbody s' pool') as [-> | (v & fees & total & token & dir & ->)];
    [apply same_deposits_refl | apply same_deposits_addFeesToPositions].
Qed.

(** X4. Whatever the pool, the amount and the outcome (a return, a throw
    or no end within the fuel), [sellY], [buyY], [sellX], [buyX] and
    [movePrice] leave the fee rate and the keys of the map as they were,
    and under each key the id, the range, the liquidity and the initial
    balance of the position: a trade writes to [sqrtPrice] and to the
    rewards only. *)
Theorem trades_keep_deposits (Math_sqrt : Qc → Qc) (fuel : nat) (a : Qc)
    (pool : Pool) :
  same_deposits pool (sellY fuel a pool).1
  ∧ same_deposits pool (buyY fuel a pool).1
  ∧ same_deposits pool (sellX fuel a pool).1
  ∧ same_deposits pool (buyX fuel a pool).1
  ∧ same_deposits pool (movePrice Math_sqrt fuel a pool).1.
Proof.
  split; [| split; [| split; [| split]]].
  - unfold sellY. destruct (decide (a ≤ 0)); [apply same_deposits_refl |].
    pose proof (while_same_deposits fuel sellY_test
                  (sellY_segment (a * feeRate pool)) (a - a * feeRate pool, 0)
                  pool (sellY_segment_one_step _)) as Hg.
    unfold_method. simpl.
    by destruct (while _ _ _ _ _) as [pool1 [[dY dX] | e1 |]].
  - unfold buyY. destruct (decide (a ≤ 0)); [apply same_deposits_refl |].
    pose proof (while_same_deposits fuel buyY_test buyY_segment (- a, 0)
                  pool buyY_segment_one_step) as Hg.
    unfold_method. simpl.
    by destruct (while _ _ _ _ _) as [pool1 [[dY dX] | e1 |]].
  - unfold sellX. destruct (decide (a ≤ 0)); [apply same_deposits_refl |].
    pose proof (while_same_deposits fuel sellX_test
                  (sellX_segment (a * feeRate pool)) (a - a * feeRate pool, 0)
                  pool (sellX_segment_one_step _)) as Hg.
    unfold_method. simpl.
    by destruct (while _ _ _ _ _) as [pool1 [[dX dY] | e1 |]].
  - unfold buyX. destruct (decide (a ≤ 0)); [apply same_deposits_refl |].
    pose proof (while_same_deposits fuel buyX_test buyX_segment (- a, 0)
                  pool buyX_segment_one_step) as Hg.
    unfold_method. simpl.
    by destruct (while _ _ _ _ _) as [pool1 [[dX dY] | e1 |]].
  - unfold movePrice. unfold_method. simpl.
    destruct (decide _); [apply same_deposits_refl |].
    pose proof (while_same_deposits fuel movePrice_test
                  (movePrice_segment (Math_sqrt a))
                  (Math_sqrt a - sqrtPrice pool, 0, 0)
                  pool (movePrice_segment_one_step _)) as Hg.
    by destruct (while _ _ _ _ _) as [pool1 [[[d dX] dY] | e1 |]].
Qed.

(** ** Calls that return *)

Lemma while_Return {L : Type} fuel (test : L → bool) body s pool s' pool' :
  while fuel test body s pool = (pool', Return s') →
  segments test body (s, pool) (s', pool') ∧ test s' = false.
Proof.
  revert s pool. induction fuel as [| fuel IH]; intros s pool; simpl;
    destruct (test s) eqn:Ht; try discriminate;
    try (intros [= <- <-]; split; [constructor | done]).
  unfold mbind, Method_bind.
  destruct (body s pool) as [pool1 [s1 | e1 |]] eqn:Hb; try discriminate.
  intros H. destruct (IH _ _ H) as [Hseg Ht']. split; [| done].
  by eapply segments_next.
Qed.

Lemma segments_invariant {L : Type} (test : L → bool) body (I : L * Pool → Prop)
    sp sp' :
  (∀ s pool s1 pool1, test s = true → body s pool = (pool1, Return s1) →
     I (s, pool) → I (s1, pool1)) →
  segments test body sp sp' → I sp → I sp'.
Proof. intros Hstep Hseg. induction Hseg; eauto. Qed.

Lemma movePrice_segment_Return target s pool s1 pool1 :
  movePrice_segment target s pool = (pool1, Return s1) →
  s1.1.1 = target - sqrtPrice pool1.
Proof.
  destruct s as [[d dX] dY]. unfold movePrice_segment. unfold_method.
  destruct (getCurrentRange _ pool); simpl; try discriminate.
  destruct (decide (_ = 0)); simpl; [discriminate |].
  by intros [= <- <-].
Qed.

(** X5. When [movePrice] returns, the pool is at the target: its
    [sqrtPrice] is the square root of the target price, however many
    segments the move took. *)
Theorem movePrice_reaches_target (Math_sqrt : Qc → Qc) (fuel : nat)
    (targetPrice : Qc) (pool pool' : Pool) (delta : Balance) :
  movePrice Math_sqrt fuel targetPrice pool = (pool', Return delta) →
  sqrtPrice pool' = Math_sqrt targetPrice.
Proof.
  unfold movePrice. unfold_method. simpl.
  destruct (decide _) as [E |]; [by intros [= <- _] |].
  destruct (while _ _ _ _ _) as [pool1 [[[d dX] dY] | e1 |]] eqn:Hw;
    [| discriminate | discriminate].
  intros [= <- _]. apply while_Return in Hw as [Hseg Ht].
  apply bool_decide_eq_false in Ht. apply dec_stable in Ht.
  assert (Hd : d = Math_sqrt targetPrice - sqrtPrice pool1).
  { apply (segments_invariant _ _
             (λ sp, sp.1.1.1 = Math_sqrt targetPrice - sqrtPrice sp.2) _ _
             (λ s pool0 s1 pool2 _ Hb _, movePrice_segment_Return _ _ _ _ _ Hb)
             Hseg).
    done. }
  rewrite Ht in Hd. symmetry. apply Qc_eq_this. apply Qc_eq_this in Hd.
  revert Hd. rewrite this_minus, this_0. intros Hd. lra.
Qed.

Lemma buyY_segment_Return dY dX pool dY1 dX1 pool1 :
  feeRate pool ≠ 1 →
  buyY_segment (dY, dX) pool = (pool1, Return (dY1, dX1)) →
  feeRate pool1 = feeRate pool
  ∧ total_rewards pool1
    = {| x := x (total_rewards pool) + feeRate pool * (dX1 - dX);
         y := y (total_rewards pool) |}.
Proof.
  intros Hf. unfold buyY_segment. unfold_method.
  destruct (getCurrentRange DOWN pool) as [r | |]; simpl; try discriminate.
  destruct (decide _) as [| HL]; simpl; [discriminate |].
  intros [= <- <- <-]. split; [done |].
  change (total_rewards (set_sqrtPrice ?v ?pool1)) with (total_rewards pool1).
  rewrite total_rewards_addFeesToPositions. simpl. f_equal.
  assert (1 - feeRate pool ≠ 0) by (intros E; apply Hf; qc_lra).
  f_equal. qc_field.
Qed.

Lemma buyX_segment_Return dX dY pool dX1 dY1 pool1 :
  feeRate pool ≠ 1 →
  buyX_segment (dX, dY) pool = (pool1, Return (dX1, dY1)) →
  feeRate pool1 = feeRate pool
  ∧ total_rewards pool1
    = {| x := x (total_rewards pool);
         y := y (total_rewards pool) + feeRate pool * (dY1 - dY) |}.
Proof.
  intros Hf. unfold buyX_segment. unfold_method.
  destruct (getCurrentRange UP pool) as [r | |]; simpl; try discriminate.
  destruct (decide _) as [| HL]; simpl; [discriminate |].
  intros [= <- <- <-]. split; [done |].
  change (total_rewards (set_sqrtPrice ?v ?pool1)) with (total_rewards pool1).
  rewrite total_rewards_addFeesToPositions. simpl. f_equal.
  assert (1 - feeRate pool ≠ 0) by (intros E; apply Hf; qc_lra).
  f_equal. qc_field.
Qed.

(** X6. When a purchase returns, the positions have been paid, in the
    token the buyer pays with, the fee rate times the amount returned
    (the payment, fee included), and nothing in the other token: this holds
    across any number of segments, for every pool whose fee rate is not 1. *)
Theorem purchase_fee_is_rate_times_payment (fuel : nat) (a : Qc)
    (pool pool' : Pool) (paid : Qc) :
  feeRate pool ≠ 1 →
  (buyY fuel a pool = (pool', Return paid) →
     total_rewards pool'
     = {| x := x (total_rewards pool) + feeRate pool * paid;
          y := y (total_rewards pool) |})
  ∧ (buyX fuel a pool = (pool', Return paid) →
     total_rewards pool'
     = {| x := x (total_rewards pool);
          y := y (total_rewards pool) + feeRate pool * paid |}).
Proof.
  intros Hf. split.
  - unfold buyY. destruct (decide _); [discriminate |]. unfold_method. simpl.
    destruct (while _ _ _ _ _) as [pool1 [[dY dX] | e1 |]] eqn:Hw;
      [| discriminate | discriminate].
    intros [= <- <-]. apply while_Return in Hw as [Hseg _].
    apply (segments_invariant _ _
             (λ sp, feeRate sp.2 = feeRate pool
                    ∧ total_rewards sp.2
                      = {| x := x (total_rewards pool) + feeRate pool * sp.1.2;
                           y := y (total_rewards pool) |})) in Hseg.
    + cbn [fst snd] in Hseg. by destruct Hseg as [_ ->].
    + intros [dY0 dX0] pool0 [dY1 dX1] pool2 _ Hb [Hf0 Hr]. cbn [fst snd] in *.
      rewrite <- Hf0 in Hf.
      destruct (buyY_segment_Return _ _ _ _ _ _ Hf Hb) as [Hf1 ->].
      split; [congruence |]. rewrite Hr, Hf0. cbn [x y]. f_equal. ring.
    + cbn [fst snd]. split; [done |]. destruct (total_rewards pool).
      cbn [x y]. f_equal. ring.
  - unfold buyX. destruct (decide _); [discriminate |]. unfold_method. simpl.
    destruct (while _ _ _ _ _) as [pool1 [[dX dY] | e1 |]] eqn:Hw;
      [| discriminate | discriminate].
    intros [= <- <-]. apply while_Return in Hw as [Hseg _].
    apply (segments_invariant _ _
             (λ sp, feeRate sp.2 = feeRate pool
                    ∧ total_rewards sp.2
                      = {| x := x (total_rewards pool);
                           y := y (total_rewards pool) + feeRate pool * sp.1.2 |}))
      in Hseg.
    + cbn [fst snd] in Hseg. by destruct Hseg as [_ ->].
    + intros [dX0 dY0] pool0 [dX1 dY1] pool2 _ Hb [Hf0 Hr]. cbn [fst snd] in *.
      rewrite <- Hf0 in Hf.
      destruct (buyX_segment_Return _ _ _ _ _ _ Hf Hb) as [Hf1 ->].
      split; [congruence |]. rewrite Hr, Hf0. cbn [x y]. f_equal. ring.
    + cbn [fst snd]. split; [done |]. destruct (total_rewards pool).
      cbn [x y]. f_equal. ring.
Qed.

(** ** Trades that fit in the current range *)







Lemma getCurrentRange_Return_covers dir pool r :
  getCurrentRange dir pool = Return r →
  covers dir (sqrtPrice pool) r
  ∧ ∀ position, position ∈ getPositionsInRange dir pool →
      (sqrtRange position).1 ≤ r.1 ∧ r.2 ≤ (sqrtRange position).2.
Proof.
  intros Hr.
  destruct (getCurrentRange_cases dir pool) as [[_ E] | (r' & E & H)];
    rewrite E in Hr; [discriminate |]. injection Hr as ->.
  destruct H as ((a & Ha & E1) & Hlo & (b & Hb & E2) & Hhi). split.
  - apply list_elem_of_fmap in Ha as (pa & -> & Ha).
    apply list_elem_of_fmap in Hb as (pb & -> & Hb).
    apply elem_of_getPositionsInRange in Ha as [_ Hca].
    apply elem_of_getPositionsInRange in Hb as [_ Hcb].
    destruct dir; simpl in *; rewrite <- E1, <- E2; tauto.
  - intros position Hin. split; [apply Hlo | apply Hhi];
      apply list_elem_of_fmap; by exists position.
Qed.



(** ** Trades on a single position: there and back, and what is conserved *)












(** ** More liquidity math *)

Lemma Qcdiv_le_compat_den (L a b : Qc) : 0 ≤ L → 0 < a → a ≤ b → L / b ≤ L / a.
Proof.
  intros HL Ha Hab.
  assert (Hb : 0 < b) by by apply Qclt_le_trans with a.
  assert (Ea := Qc_div_mult L a (Qc_pos_neq_0 _ Ha)).
  assert (Eb := Qc_div_mult L b (Qc_pos_neq_0 _ Hb)).
  assert (Ha' := Qcdiv_nonneg L a HL Ha).
  assert (Hb' := Qcdiv_nonneg L b HL Hb).
  revert Ea Eb Ha' Hb'. generalize (L / a) (L / b). intros u v Ea Eb Hu Hv.
  apply Qcnot_lt_le. intros Hlt.
  assert (u * a < v * b).
  { apply Qcle_lt_trans with (u * b).
    - rewrite !(Qcmult_comm u). by apply Qcmult_le_compat_r.
    - by apply Qcmult_lt_compat_r. }
  rewrite Ea, Eb in H. by apply Qclt_not_eq in H.
Qed.

Lemma clamped_in_range (lo hi p : Qc) :
  lo ≤ hi →
  let c := if decide (hi < p) then hi else if decide (p < lo) then lo else p in
  lo ≤ c ∧ c ≤ hi.
Proof.
  intros H c. unfold c. destruct (decide (hi < p)); [by split |].
  destruct (decide (p < lo)); [by split |].
  split; by apply Qcnot_lt_le.
Qed.

Lemma clamped_mono (lo hi p q : Qc) :
  lo ≤ hi → p ≤ q →
  (if decide (hi < p) then hi else if decide (p < lo) then lo else p)
  ≤ (if decide (hi < q) then hi else if decide (q < lo) then lo else q).
Proof.
  intros H Hpq.
  destruct (decide (hi < p)), (decide (hi < q)), (decide (p < lo)),
    (decide (q < lo)); qc_lra.
Qed.

(** X12. The amounts [getTokenAmounts] gives for a liquidity that is not
    negative and a range [0 < lo <= hi] are never negative, at any price;
    and as the price rises the amount of X does not rise and the amount of
    Y does not fall. *)
Theorem getTokenAmounts_nonneg_monotone (L lo hi p q : Qc) :
  0 ≤ L → 0 < lo → lo ≤ hi →
  0 ≤ x (getTokenAmounts L (lo, hi) p) ∧ 0 ≤ y (getTokenAmounts L (lo, hi) p)
  ∧ (p ≤ q →
     x (getTokenAmounts L (lo, hi) q) ≤ x (getTokenAmounts L (lo, hi) p)
     ∧ y (getTokenAmounts L (lo, hi) p) ≤ y (getTokenAmounts L (lo, hi) q)).
Proof.
  intros HL Hlo Hlohi. unfold getTokenAmounts. cbn [x y fst snd].
  destruct (clamped_in_range lo hi p Hlohi) as [Hp1 Hp2].
  destruct (clamped_in_range lo hi q Hlohi) as [Hq1 Hq2].
  cbv zeta in Hp1, Hp2, Hq1, Hq2.
  split; [| split].
  - assert (L / hi ≤ L / (if decide (hi < p) then hi
               else if decide (p < lo) then lo else p)).
    { apply Qcdiv_le_compat_den; [done | | done]. by apply Qclt_le_trans with lo. }
    qc_lra.
  - assert (L * lo ≤ L * (if decide (hi < p) then hi
               else if decide (p < lo) then lo else p)).
    { rewrite !(Qcmult_comm L). by apply Qcmult_le_compat_r. }
    qc_lra.
  - intros Hpq. pose proof (clamped_mono lo hi p q Hlohi Hpq) as Hc. split.
    + assert (L / (if decide (hi < q) then hi
                 else if decide (q < lo) then lo else q)
              ≤ L / (if decide (hi < p) then hi
                 else if decide (p < lo) then lo else p)).
      { apply Qcdiv_le_compat_den; [done | | done]. by apply Qclt_le_trans with lo. }
      qc_lra.
    + assert (L * (if decide (hi < p) then hi
                 else if decide (p < lo) then lo else p)
              ≤ L * (if decide (hi < q) then hi
                 else if decide (q < lo) then lo else q)).
      { rewrite !(Qcmult_comm L). by apply Qcmult_le_compat_r. }
      qc_lra.
Qed.

(** X13. The liquidity [getLiquidity] computes for a deposit [(x, y)] and a
    range [(pa, pb)] is a solution of the equation of the virtual reserves,
    [(x + L / pb) * (y + L * pa) = L ^ 2], whenever [Math.sqrt] is exact on
    the discriminant. *)
Theorem getLiquidity_virtual_reserves (Math_sqrt : Qc → Qc) (tokens : Balance)
    (pa pb : Qc) :
  let b := x tokens * pa + y tokens / pb in
  let d := b ^ 2 - num 4 1 * (pa / pb - 1) * (x tokens * y tokens) in
  let L := getLiquidity Math_sqrt tokens (pa, pb) in
  pb ≠ 0 → pa ≠ pb → Math_sqrt d ^ 2 = d →
  (x tokens + L / pb) * (y tokens + L * pa) = L ^ 2.
Proof.
  intros b d L Hpb Hne Hd. unfold L, getLiquidity. cbn [fst snd].
  fold b. fold d. revert Hd. generalize (Math_sqrt d). intros D Hd.
  unfold d in Hd. clear d L.
  assert (Ha : pa / pb - 1 ≠ 0).
  { intros E. apply Hne. rewrite <- (Qc_div_mult pa pb Hpb).
    assert (pa / pb = 1) as -> by qc_lra. ring. }
  assert (E4 : num 4 1 = 1 + 1 + 1 + 1) by (apply Qc_is_canon; reflexivity).
  assert (E2 : num 2 1 = 1 + 1) by (apply Qc_is_canon; reflexivity).
  rewrite E4 in Hd. rewrite E2. clear E4 E2.
  assert (Eb : b = x tokens * pa + y tokens / pb) by done.
  revert Eb Hd Ha. generalize b. clear b. intros b Eb Hd Ha.
  assert (Ey := Qc_div_mult (y tokens) pb Hpb).
  assert (Ep := Qc_div_mult pa pb Hpb).
  revert Eb Hd Ha Ey Ep. generalize (y tokens / pb). generalize (pa / pb).
  generalize (x tokens) (y tokens). intros tx ty r yb Eb Hd Ha Ey Ep.
  set (L := (- b - D) / ((1 + 1) * (r - 1))).
  assert (EL : L * ((1 + 1) * (r - 1)) = - b - D).
  { unfold L. apply Qc_div_mult. intros E. apply Ha.
    apply Qc_eq_this in E. apply Qc_eq_this. revert E. to_Q. lra. }
  assert (ELb := Qc_div_mult L pb Hpb).
  revert ELb. generalize (L / pb). intros lb ELb.
  rewrite !Qcpower_2 in *.
  assert (Q : (r - 1) * (L * L) + b * L + tx * ty = 0).
  { assert (((1 + 1) * (r - 1) * L + b) * ((1 + 1) * (r - 1) * L + b)
            = b * b - (1 + 1 + 1 + 1) * (r - 1) * (tx * ty)).
    { rewrite <- Hd. assert ((1 + 1) * (r - 1) * L + b = - D) as ->.
      { rewrite (Qcmult_comm _ L), EL. ring. }
      ring. }
    assert (M : (1 + 1 + 1 + 1) * (r - 1)
                * ((r - 1) * (L * L) + b * L + tx * ty) = 0).
    { apply Qc_eq_this in H. apply Qc_eq_this. revert H. to_Q. lra. }
    apply Qcmult_integral in M as [M | M]; [| done].
    exfalso. apply Ha. apply Qc_eq_this in M. apply Qc_eq_this. revert M. to_Q. lra. }
  assert (G : ((tx + lb) * (ty + L * pa) - L * L) * pb = 0).
  { clearbody L. clear EL Hd Ha. subst b L pa ty.
    match goal with
    | |- ?g = 0 =>
        match type of Q with
        | ?q = 0 => assert (g = pb * q) as -> by ring
        end
    end.
    rewrite Q. ring. }
  apply Qcmult_integral in G as [G | G]; [| done].
  apply Qc_eq_this in G. apply Qc_eq_this. revert G. to_Q. lra.
Qed.

Lemma Qc_square_eq (D t : Qc) : 0 ≤ D → 0 ≤ t → D ^ 2 = t ^ 2 → D = t.
Proof.
  intros HD Ht E. rewrite !Qcpower_2 in E.
  assert (M : (D - t) * (D + t) = 0).
  { assert ((D - t) * (D + t) = D * D - t * t) as -> by ring. rewrite E. ring. }
  apply Qcmult_integral in M as [M | M]; qc_lra.
Qed.

(** X14. [getLiquidity] undoes [getTokenAmounts]: from the amounts that a
    liquidity [L >= 0] holds on a range [0 < pa < pb] at any price, it
    computes [L] again, whenever [Math.sqrt] returns the root that is not
    negative and is exact on the discriminant. *)
Theorem getLiquidity_getTokenAmounts (Math_sqrt : Qc → Qc) (L pa pb p : Qc) :
  let tokens := getTokenAmounts L (pa, pb) p in
  let b := x tokens * pa + y tokens / pb in
  let d := b ^ 2 - num 4 1 * (pa / pb - 1) * (x tokens * y tokens) in
  0 ≤ L → 0 < pa → pa < pb → 0 ≤ Math_sqrt d → Math_sqrt d ^ 2 = d →
  getLiquidity Math_sqrt tokens (pa, pb) = L.
Proof.
  intros tokens b d HL Hpa Hlt HD Hd. unfold getLiquidity. cbn [fst snd].
  fold b. fold d. revert HD Hd. generalize (Math_sqrt d). intros D HD Hd.
  destruct (clamped_in_range pa pb p (Qclt_le_weak _ _ Hlt)) as [Hc1 Hc2].
  cbv zeta in Hc1, Hc2.
  unfold d, b, tokens, getTokenAmounts in *. cbn [x y fst snd] in *.
  clear d b tokens.
  revert Hc1 Hc2 Hd.
  generalize (if decide (pb < p) then pb else if decide (p < pa) then pa else p).
  intros c Hc1 Hc2 Hd.
  assert (Hc : 0 < c) by by apply Qclt_le_trans with pa.
  assert (Hpb : 0 < pb) by by apply Qclt_trans with pa.
  assert (Hu := Qcmult_inv_l c (Qc_pos_neq_0 _ Hc)).
  assert (Hw := Qcmult_inv_l pb (Qc_pos_neq_0 _ Hpb)).
  assert (E4 : num 4 1 = 1 + 1 + 1 + 1) by (apply Qc_is_canon; reflexivity).
  assert (E2 : num 2 1 = 1 + 1) by (apply Qc_is_canon; reflexivity).
  rewrite E4 in Hd. rewrite E2. clear E4 E2.
  unfold Qcdiv in *. revert Hu Hw Hd.
  generalize (/ c) (/ pb). intros u w Hu Hw Hd.
  assert (Hu0 : 0 < u).
  { apply Qcnot_le_lt. intros Hle.
    assert (u * c ≤ 0 * c) by (apply Qcmult_le_compat_r; [done | by apply Qclt_le_weak]).
    rewrite Hu in H. revert H. to_Q. lra. }
  assert (Hw0 : 0 < w).
  { apply Qcnot_le_lt. intros Hle.
    assert (w * pb ≤ 0 * pb) by (apply Qcmult_le_compat_r; [done | by apply Qclt_le_weak]).
    rewrite Hw in H. revert H. to_Q. lra. }
  assert (H1 : u * pa ≤ 1).
  { rewrite <- Hu. rewrite !(Qcmult_comm u).
    apply Qcmult_le_compat_r; [done | by apply Qclt_le_weak]. }
  assert (H2 : c * w ≤ 1).
  { rewrite <- Hw. rewrite (Qcmult_comm w).
    apply Qcmult_le_compat_r; [done | by apply Qclt_le_weak]. }
  assert (H3 : pa * w < 1).
  { rewrite <- Hw. rewrite (Qcmult_comm w). by apply Qcmult_lt_compat_r. }
  set (a := pa * w - 1) in *.
  set (b := (L * u - L * w) * pa + (L * c - L * pa) * w) in *.
  set (t := - ((1 + 1) * a * L + b)).
  assert (Ht : 0 ≤ t).
  { assert (t = L * (1 + 1 - u * pa - c * w)) as -> by (unfold t, a, b; ring).
    apply Qcmult_nonneg_nonneg; [done |]. qc_lra. }
  assert (Et : t ^ 2 = D ^ 2).
  { rewrite Hd, !Qcpower_2. unfold t.
    assert (Q : a * (L * L) + b * L + (L * u - L * w) * (L * c - L * pa) = 0).
    { assert (a * (L * L) + b * L + (L * u - L * w) * (L * c - L * pa)
              = L * L * (u * c - 1)) as -> by (unfold a, b; ring).
      rewrite Hu. ring. }
    assert (- ((1 + 1) * a * L + b) * - ((1 + 1) * a * L + b)
            = b * b - (1 + 1 + 1 + 1) * a * ((L * u - L * w) * (L * c - L * pa))
              + (1 + 1 + 1 + 1) * a
                * (a * (L * L) + b * L + (L * u - L * w) * (L * c - L * pa)))
      as -> by ring.
    rewrite Q. ring. }
  assert (ED : D = t) by (apply Qc_square_eq; done).
  rewrite ED. unfold t.
  assert (Ha : (1 + 1) * a ≠ 0) by (unfold a; intros E; qc_lra).
  assert (- b - - ((1 + 1) * a * L + b) = L * ((1 + 1) * a)) as -> by ring.
  rewrite <- Qcmult_assoc, Qcmult_inv_r by done. ring.
Qed.

(** X15. [getMaxTokenAmounts] never asks for more than the tokens
    offered: when the offer and the rebalanced amounts are above 0, the
    deposit it returns keeps one of the two amounts of the offer, lowers
    the other or leaves it, and is in the proportion [x : y] of the
    rebalanced amounts. [getMaxLiquidity] is [getLiquidity] of that deposit,
    less [1000 * Number.EPSILON]. *)
Theorem getMaxTokenAmounts_within_offer (Math_sqrt : Qc → Qc) (tokens : Balance)
    (sqrtRange : Range) (sqrtPrice : Qc) :
  let tokensRebalanced :=
    getTokenAmounts (getLiquidity Math_sqrt tokens sqrtRange) sqrtRange sqrtPrice in
  let deposited := getMaxTokenAmounts Math_sqrt tokens sqrtRange sqrtPrice in
  0 < x tokens → 0 < y tokens →
  0 < x tokensRebalanced → 0 < y tokensRebalanced →
  x deposited ≤ x tokens ∧ y deposited ≤ y tokens
  ∧ (x deposited = x tokens ∨ y deposited = y tokens)
  ∧ x deposited * y tokensRebalanced = y deposited * x tokensRebalanced
  ∧ getMaxLiquidity Math_sqrt tokens sqrtRange sqrtPrice
    = getLiquidity Math_sqrt deposited sqrtRange - num 1000 1 * Number_EPSILON.
Proof.
  intros tokensRebalanced deposited Htx Hty Hrx Hry.
  unfold deposited, getMaxLiquidity, getMaxTokenAmounts. fold tokensRebalanced.
  cbn [x y]. clear deposited. revert Hrx Hry.
  generalize tokensRebalanced. clear tokensRebalanced. intros [rx ry].
  destruct tokens as [tx ty]. cbn [x y] in *. intros Hrx Hry.
  assert (E1 := Qc_div_mult rx tx (Qc_pos_neq_0 _ Htx)).
  assert (E2 := Qc_div_mult ry ty (Qc_pos_neq_0 _ Hty)).
  assert (E3 := Qc_div_mult rx ry (Qc_pos_neq_0 _ Hry)).
  assert (E4 := Qc_div_mult ry rx (Qc_pos_neq_0 _ Hrx)).
  assert (H1 := Qcdiv_pos rx tx Hrx Htx).
  assert (H2 := Qcdiv_pos ry ty Hry Hty).
  assert (H3 := Qcdiv_pos rx ry Hrx Hry).
  assert (H4 := Qcdiv_pos ry rx Hry Hrx).
  destruct (decide (rx / tx < ry / ty)) as [Hlt | Hge]; cbn [x y].
  - revert E1 E2 E3 H1 H2 H3 Hlt. clear E4 H4.
    generalize (rx / tx) (ry / ty) (rx / ry). intros q1 q2 q3 E1 E2 E3 H1 H2 H3 Hlt.
    split; [| split; [apply Qcle_refl | split; [by right | split; [| done]]]].
    + apply Qcnot_lt_le. intros Hgt.
      assert (A : q2 * tx < q2 * (q3 * ty))
        by (rewrite !(Qcmult_comm q2); by apply Qcmult_lt_compat_r).
      assert (B : q1 * tx < q2 * tx) by by apply Qcmult_lt_compat_r.
      assert (C : q2 * (q3 * ty) = q1 * tx).
      { rewrite E1, <- E3, <- E2. ring. }
      rewrite C in A. qc_lra.
    + rewrite <- E3. ring.
  - apply Qcnot_lt_le in Hge. revert E1 E2 E4 H1 H2 H4 Hge. clear E3 H3.
    generalize (rx / tx) (ry / ty) (ry / rx). intros q1 q2 q4 E1 E2 E4 H1 H2 H4 Hge.
    split; [apply Qcle_refl | split; [| split; [by left | split; [| done]]]].
    + apply Qcnot_lt_le. intros Hgt.
      assert (A : q1 * ty < q1 * (q4 * tx))
        by (rewrite !(Qcmult_comm q1); by apply Qcmult_lt_compat_r).
      assert (B : q2 * ty ≤ q1 * ty)
        by (apply Qcmult_le_compat_r; [done | by apply Qclt_le_weak]).
      assert (C : q1 * (q4 * tx) = q2 * ty).
      { rewrite E2, <- E4, <- E1. ring. }
      rewrite C in A. qc_lra.
    + rewrite <- E4. ring.
Qed.

(** X16. [getRange] recovers the bound that is not given: from the
    amounts a liquidity [L] above 0 holds on [(pa, pb)] at a price strictly
    inside the range, with [0 < pa], it returns [(pa, pb)] when given [pb]
    and when given [pa]. *)
Theorem getRange_getTokenAmounts (L pa pb p : Qc) :
  0 < L → 0 < pa → pa < p → p < pb →
  getRange (getTokenAmounts L (pa, pb) p) p (GivenPb pb) = Some (pa, pb)
  ∧ getRange (getTokenAmounts L (pa, pb) p) p (GivenPa pa) = Some (pa, pb).
Proof.
  intros HL Hpa Hlo Hhi.
  assert (Hp : 0 < p) by by apply Qclt_trans with pa.
  assert (Hpb : 0 < pb) by by apply Qclt_trans with p.
  assert (HL0 := Qc_pos_neq_0 _ HL). assert (Hp0 := Qc_pos_neq_0 _ Hp).
  assert (Hpa0 := Qc_pos_neq_0 _ Hpa). assert (Hpb0 := Qc_pos_neq_0 _ Hpb).
  assert (Hd1 : pb - p ≠ 0) by (intros E; qc_lra).
  assert (Hd2 : p - pa ≠ 0) by (intros E; qc_lra).
  unfold getRange, getTokenAmounts. cbn [x y fst snd].
  rewrite (decide_False (P := pb < p)) by (intros H; qc_lra).
  rewrite (decide_False (P := p < pa)) by (intros H; qc_lra).
  rewrite !decide_True by done.
  split; f_equal; f_equal.
  - assert (E : (L / p - L / pb) * p * pb = L * (pb - p)) by qc_field.
    rewrite E. qc_field.
  - assert (E : (pa - p) * (L / p - L / pb) * p + (L * p - L * pa)
                = L * (p - pa) * p / pb) by qc_field.
    rewrite E. qc_field.
Qed.

(** ** Entering and leaving *)

(** X17. Entering under an id that is not in the map and leaving again
    restores the pool: [enterPosition] returns a position with that id,
    the square-root range of the given range and no rewards, stores it
    under the id and leaves the price and the fee rate as they are;
    [exitPosition] on that id then returns the balance of the position at
    the price of the pool, which for a position entered with a liquidity is
    its [initialBalance], and the pool is the one before the entry. *)
Theorem enterPosition_then_exitPosition (Math_sqrt : Qc → Qc) (uuid : string)
    (range : Range) (param : EnterParam) (pool : Pool) :
  positions pool !! uuid = None →
  ∃ position pool1,
    enterPosition Math_sqrt uuid range param pool = (pool1, Return position)
    ∧ id position = uuid
    ∧ sqrtRange position = toSqrtRange Math_sqrt range
    ∧ rewards position = {| x := 0; y := 0 |}
    ∧ getPosition uuid pool1 = Some position
    ∧ sqrtPrice pool1 = sqrtPrice pool ∧ feeRate pool1 = feeRate pool
    ∧ exitPosition uuid pool1 = (pool, Return (balance (sqrtPrice pool) position))
    ∧ (∀ L, param = WithLiquidity L →
         liquidity position = L
         ∧ initialBalance position = balance (sqrtPrice pool) position).
Proof.
  intros Hfresh. unfold enterPosition.
  set (position := new_Position Math_sqrt uuid (sqrtPrice pool) _ _).
  assert (Hid : id position = uuid) by done.
  assert (Hr : rewards position = {| x := 0; y := 0 |}) by done.
  rewrite Hid. exists position, (set_positions (insert uuid position) pool).
  split; [done |]. split; [done |]. split; [done |]. split; [done |].
  split; [apply lookup_insert_eq |]. split; [done |]. split; [done |].
  split.
  - unfold exitPosition, set_positions. cbn [positions sqrtPrice feeRate].
    rewrite lookup_insert_eq. f_equal.
    + rewrite delete_insert_id by done. by destruct pool.
    + rewrite Hr. destruct (balance (sqrtPrice pool) position) as [bx by'].
      cbn [x y]. f_equal. f_equal; ring.
  - by intros L Hp; unfold position; rewrite Hp.
Qed.

(** X18. A position can be left only once: after [exitPosition] has
    returned for an id, [getPosition] finds nothing under that id and a
    second [exitPosition] throws "Position doesn't exist" and leaves the
    pool as the first call left it. *)
Theorem exitPosition_twice (id : string) (pool pool1 : Pool) (v : Balance) :
  exitPosition id pool = (pool1, Return v) →
  getPosition id pool1 = None
  ∧ exitPosition id pool1 = (pool1, Throw PositionDoesntExist).
Proof.
  unfold exitPosition, getPosition.
  destruct (positions pool !! id) as [position |] eqn:E; [| discriminate].
  intros H. injection H as <- _. cbn [positions set_positions].
  by rewrite !lookup_delete_eq.
Qed.

(** ** The current range and the positions in it *)

(** X19. The range [getCurrentRange] returns has the price of the pool in
    it, in the sense of the direction, so it is not empty; and every
    position that is in range at the price of the pool is in range at every
    price of the returned range. *)
Theorem getCurrentRange_keeps_positions_in_range (dir : Direction) (pool : Pool)
    (r : Range) :
  getCurrentRange dir pool = Return r →
  covers dir (sqrtPrice pool) r
  ∧ r.1 < r.2
  ∧ ∀ q position,
      covers dir q r →
      position ∈ getPositionsInRange dir pool →
      position ∈ getPositionsInRange dir (set_sqrtPrice q pool).
Proof.
  intros Hr. destruct (getCurrentRange_Return_covers dir pool r Hr) as [Hc Hall].
  split; [done |]. split.
  - destruct dir; destruct Hc as [H1 H2];
      [by apply Qcle_lt_trans with (sqrtPrice pool)
      | by apply Qclt_le_trans with (sqrtPrice pool)].
  - intros q position Hq Hin. destruct (Hall position Hin) as [H1 H2].
    apply elem_of_getPositionsInRange in Hin as [Hin _].
    apply elem_of_getPositionsInRange. split; [done |].
    change (sqrtPrice (set_sqrtPrice q pool)) with q.
    destruct dir; destruct Hq as [Hq1 Hq2]; split.
    + by apply Qcle_trans with r.1.
    + by apply Qclt_le_trans with r.2.
    + by apply Qcle_lt_trans with r.1.
    + by apply Qcle_trans with r.2.
Qed.

(** X20. The direction matters only on a bound: when the price of the
    pool is not a bound of any position, [getPositionsInRange],
    [getLiquidityInCurrentRange] and [getCurrentRange] give the same for
    [UP] and for [DOWN]. *)
Theorem direction_matters_only_on_a_bound (pool : Pool) :
  (∀ position, position ∈ values pool →
     (sqrtRange position).1 ≠ sqrtPrice pool
     ∧ (sqrtRange position).2 ≠ sqrtPrice pool) →
  getPositionsInRange UP pool = getPositionsInRange DOWN pool
  ∧ getLiquidityInCurrentRange UP pool = getLiquidityInCurrentRange DOWN pool
  ∧ getCurrentRange UP pool = getCurrentRange DOWN pool.
Proof.
  intros H.
  assert (E : getPositionsInRange UP pool = getPositionsInRange DOWN pool).
  { unfold getPositionsInRange.
    induction (values pool) as [| position l IH]; [done |].
    assert (Hp : inRange UP (sqrtPrice pool) (sqrtRange position)
                 = inRange DOWN (sqrtPrice pool) (sqrtRange position)).
    { destruct (H position) as [H1 H2]; [by left |].
      apply eq_true_iff_eq. rewrite inRange_UP, inRange_DOWN.
      split; intros [Ha Hb]; split.
      - destruct (Qcle_lt_or_eq _ _ Ha); [done | by destruct H1].
      - by apply Qclt_le_weak.
      - by apply Qclt_le_weak.
      - destruct (Qcle_lt_or_eq _ _ Hb); [done | by destruct H2]. }
    rewrite !filter_cons, Hp, IH; [done |].
    intros position' Hin. apply H. by right. }
  unfold getLiquidityInCurrentRange, getCurrentRange. by rewrite E.
Qed.

(** ** The split of a fee among the positions *)

(** X21. [addFeesToPositions], called with the liquidity in range as the
    total (as the trades call it, after checking that it is not 0), pays
    out exactly the fee: the rewards of all positions grow by the fee in
    the token of the fee and by nothing in the other token. Each position in
    range is paid its share [liquidity / total] of the fee, each position
    out of range and the price are left as they are. *)
Theorem addFeesToPositions_splits_fee (fees : Qc) (token : Token)
    (dir : Direction) (pool : Pool) :
  let total := getLiquidityInCurrentRange dir pool in
  let pool' := addFeesToPositions fees total token dir pool in
  total ≠ 0 →
  total_rewards pool'
  = match token with
    | TokenX => {| x := x (total_rewards pool) + fees; y := y (total_rewards pool) |}
    | TokenY => {| x := x (total_rewards pool); y := y (total_rewards pool) + fees |}
    end
  ∧ sqrtPrice pool' = sqrtPrice pool
  ∧ ∀ k position, positions pool !! k = Some position →
      positions pool' !! k
      = Some (if decide (covers dir (sqrtPrice pool) (sqrtRange position))
              then addFee fees total token position else position).
Proof.
  intros total pool' Ht. split; [| split; [done |]].
  - unfold pool'. rewrite total_rewards_addFeesToPositions. fold total.
    cbv zeta. assert (total * (/ total * fees) = fees) as -> by qc_field.
    done.
  - intros k position Hk. unfold pool'.
    destruct (decide (covers dir (sqrtPrice pool) (sqrtRange position))) as [Hc | Hc].
    + apply addFeesToPositions_in_range; [done |].
      apply inRange_covers in Hc. by apply Is_true_true.
    + apply addFeesToPositions_out_of_range; [done |].
      rewrite <- inRange_covers in Hc. by apply Is_true_false.
Qed.

(** ** Rewards never shrink *)

(** X22. On a pool of the data model (fee rate in [[0, 1)], liquidities
    not negative, ranges above 0), [sellY], [buyY], [sellX] and [movePrice]
    never lower the rewards of a position, in either token, however the call
    ends; range and liquidity of every position stay as they are. *)
Theorem rewards_never_shrink (Math_sqrt : Qc → Qc) (fuel : nat) (a : Qc)
    (pool : Pool) :
  valid pool →
  grown pool (sellY fuel a pool).1
  ∧ grown pool (buyY fuel a pool).1
  ∧ grown pool (sellX fuel a pool).1
  ∧ grown pool (movePrice Math_sqrt fuel a pool).1.
Proof. apply rewards_grow_under_sellY_buyY_sellX_movePrice. Qed.

(** ** The getters *)

(** X23. The getters undo the square root of the constructors when
    [Math.sqrt] is exact on the inputs: [price] of a new pool is the initial
    price (1 when none is given), and [range] of an entered position is the
    range it was entered with. *)
Theorem getters_recover_inputs (Math_sqrt : Qc → Qc)
    (initialPrice feeRate : option Qc) (uuid : string) (rng : Range)
    (param : EnterParam) (pool pool1 : Pool) (position : Position) :
  (Math_sqrt (default 1 initialPrice) ^ 2 = default 1 initialPrice →
   price (new_Pool Math_sqrt initialPrice feeRate) = default 1 initialPrice)
  ∧ (Math_sqrt rng.1 ^ 2 = rng.1 → Math_sqrt rng.2 ^ 2 = rng.2 →
     enterPosition Math_sqrt uuid rng param pool = (pool1, Return position) →
     range position = rng).
Proof.
  split; [done |]. intros H1 H2 [= _ <-]. unfold range. cbn [sqrtRange new_Position].
  unfold toSqrtRange. cbn [fst snd]. rewrite H1, H2. by destruct rng.
Qed.

(** ** The loops end *)

Lemma while_ends {L : Type} (μ : L → Pool → nat) (I : L → Pool → Prop)
    (test : L → bool) body :
  (∀ s pool, (body s pool).2 ≠ Diverge) →
  (∀ s pool s1 pool1, I s pool → test s = true →
     body s pool = (pool1, Return s1) →
     I s1 pool1 ∧ (test s1 = true → μ s1 pool1 < μ s pool)%nat) →
  ∀ fuel s pool, I s pool → (μ s pool < fuel)%nat →
    (while fuel test body s pool).2 ≠ Diverge.
Proof.
  intros Hbody Hstep. induction fuel as [| fuel IH]; intros s pool HI Hμ; [lia |].
  simpl. destruct (test s) eqn:Ht; [| done].
  unfold mbind, Method_bind.
  pose proof (Hbody s pool) as Hb.
  destruct (body s pool) as [pool1 [s1 | e |]] eqn:E; [| done | done].
  destruct (Hstep s pool s1 pool1 HI Ht E) as [HI1 Hdec].
  destruct (test s1) eqn:Ht1.
  - apply IH; [done |]. specialize (Hdec eq_refl). lia.
  - destruct fuel; simpl; by rewrite Ht1.
Qed.

Lemma ranges_addFeesToPositions v fees total token dir pool :
  sqrtRange <$> values (set_sqrtPrice v (addFeesToPositions fees total token dir pool))
  = sqrtRange <$> values pool.
Proof.
  change (values (set_sqrtPrice v ?pool1)) with (values pool1).
  rewrite values_addFeesToPositions, <- list_fmap_compose.
  apply list_fmap_ext. intros i position _. simpl. by destruct (inRange _ _ _).
Qed.

Lemma current_upper_bound_is_a_bound pool r :
  getCurrentRange UP pool = Return r →
  ∃ a, a ∈ sqrtRange <$> values pool ∧ a.2 = r.2 ∧ sqrtPrice pool < a.2.
Proof.
  intros Hr.
  destruct (getCurrentRange_cases UP pool) as [[_ E] | (r' & E & H)];
    rewrite E in Hr; [discriminate |]. injection Hr as ->.
  destruct H as (_ & _ & (b & Hb & E2) & _). exists b.
  apply list_elem_of_fmap in Hb as (pb & -> & Hb).
  apply elem_of_getPositionsInRange in Hb as [Hin [_ Hc]].
  split; [| done]. apply list_elem_of_fmap. by exists pb.
Qed.

Lemma current_lower_bound_is_a_bound pool r :
  getCurrentRange DOWN pool = Return r →
  ∃ a, a ∈ sqrtRange <$> values pool ∧ a.1 = r.1 ∧ a.1 < sqrtPrice pool.
Proof.
  intros Hr.
  destruct (getCurrentRange_cases DOWN pool) as [[_ E] | (r' & E & H)];
    rewrite E in Hr; [discriminate |]. injection Hr as ->.
  destruct H as ((b & Hb & E2) & _). exists b.
  apply list_elem_of_fmap in Hb as (pb & -> & Hb).
  apply elem_of_getPositionsInRange in Hb as [Hin [Hc _]].
  split; [| done]. apply list_elem_of_fmap. by exists pb.
Qed.

Lemma length_filter_lt_sub {A} (P Q : A → Prop) `{!∀ x, Decision (P x)}
    `{!∀ x, Decision (Q x)} (l : list A) (a : A) :
  (∀ x, P x → Q x) → a ∈ l → Q a → ¬ P a →
  (length (filter P l) < length (filter Q l))%nat.
Proof.
  intros Hsub Hin HQ HP. rewrite <- (list_filter_filter_l P Q) by done.
  apply length_filter_lt with a; [| done]. by apply list_elem_of_filter.
Qed.

Lemma above_decreases pool r v fees total token dir :
  getCurrentRange UP pool = Return r → v = r.2 →
  (above (set_sqrtPrice v (addFeesToPositions fees total token dir pool))
   < above pool)%nat.
Proof.
  intros Hr ->. destruct (current_upper_bound_is_a_bound pool r Hr)
    as (a & Hin & E & Hlt).
  unfold above. rewrite ranges_addFeesToPositions.
  change (sqrtPrice (set_sqrtPrice ?v _)) with v.
  apply length_filter_lt_sub with a; [| done | done |].
  - intros b Hb. apply Qclt_trans with r.2; [| done]. by rewrite <- E.
  - rewrite E. intros H. by apply Qclt_not_eq in H.
Qed.

Lemma below_decreases pool r v fees total token dir :
  getCurrentRange DOWN pool = Return r → v = r.1 →
  (below (set_sqrtPrice v (addFeesToPositions fees total token dir pool))
   < below pool)%nat.
Proof.
  intros Hr ->. destruct (current_lower_bound_is_a_bound pool r Hr)
    as (a & Hin & E & Hlt).
  unfold below. rewrite ranges_addFeesToPositions.
  change (sqrtPrice (set_sqrtPrice ?v _)) with v.
  apply length_filter_lt_sub with a; [| done | done |].
  - intros b Hb. apply Qclt_trans with r.1; [done |]. by rewrite <- E.
  - rewrite E. intros H. by apply Qclt_not_eq in H.
Qed.

Lemma above_le pool : (above pool ≤ length (values pool))%nat.
Proof.
  unfold above. etrans; [apply length_filter |]. by rewrite length_fmap.
Qed.

Lemma below_le pool : (below pool ≤ length (values pool))%nat.
Proof.
  unfold below. etrans; [apply length_filter |]. by rewrite length_fmap.
Qed.

Lemma sellY_segment_ends fees s pool :
  (sellY_segment fees s pool).2 ≠ Diverge.
Proof.
  destruct s as [dY dX]. unfold sellY_segment. unfold_method.
  destruct (getCurrentRange_cases UP pool) as [[_ ->] | (r & -> & _)];
    simpl; [done |].
  destruct (decide (_ = 0)); simpl; done.
Qed.

Lemma buyY_segment_ends s pool : (buyY_segment s pool).2 ≠ Diverge.
Proof.
  destruct s as [dY dX]. unfold buyY_segment. unfold_method.
  destruct (getCurrentRange_cases DOWN pool) as [[_ ->] | (r & -> & _)];
    simpl; [done |].
  destruct (decide (_ = 0)); simpl; done.
Qed.

Lemma movePrice_segment_ends target s pool :
  (movePrice_segment target s pool).2 ≠ Diverge.
Proof.
  destruct s as [[d dX] dY]. unfold movePrice_segment. unfold_method.
  destruct (getCurrentRange_cases (if decide (d < 0) then DOWN else UP) pool) as [[_ ->] | (r & -> & _)];
    simpl; [done |].
  destruct (decide (_ = 0)); simpl; done.
Qed.

Lemma sellY_segment_progress fees s pool s1 pool1 :
  sellY_segment fees s pool = (pool1, Return s1) →
  sellY_test s1 = true → (above pool1 < above pool)%nat.
Proof.
  destruct s as [dY dX]. unfold sellY_segment. unfold_method.
  destruct (getCurrentRange UP pool) as [r | |] eqn:Hr; simpl; try discriminate.
  destruct (decide _) as [| HL]; simpl; [discriminate |].
  intros [= <- <-]. unfold sellY_test. rewrite bool_decide_eq_true. intros Ht.
  apply above_decreases with r; [done |].
  destruct (Math_min_cases (dY / getLiquidityInCurrentRange UP pool)
              (r.2 - sqrtPrice pool)) as [[E _] | [E _]]; rewrite E in *.
  - exfalso. rewrite Qc_div_mult in Ht by done. revert Ht. to_Q. lra.
  - ring.
Qed.

Lemma buyY_segment_progress s pool s1 pool1 :
  buyY_segment s pool = (pool1, Return s1) →
  buyY_test s1 = true → (below pool1 < below pool)%nat.
Proof.
  destruct s as [dY dX]. unfold buyY_segment. unfold_method.
  destruct (getCurrentRange DOWN pool) as [r | |] eqn:Hr; simpl; try discriminate.
  destruct (decide _) as [| HL]; simpl; [discriminate |].
  intros [= <- <-]. unfold buyY_test. rewrite bool_decide_eq_true. intros Ht.
  apply below_decreases with r; [done |].
  destruct (Math_max_cases (dY / getLiquidityInCurrentRange DOWN pool)
              (r.1 - sqrtPrice pool)) as [[E _] | [E _]]; rewrite E in *.
  - exfalso. rewrite Qc_div_mult in Ht by done. revert Ht. to_Q. lra.
  - ring.
Qed.

Lemma movePrice_segment_progress target s pool s1 pool1 :
  s.1.1 = target - sqrtPrice pool →
  movePrice_segment target s pool = (pool1, Return s1) →
  s1.1.1 = target - sqrtPrice pool1
  ∧ (movePrice_test s1 = true →
     (towards s1.1.1 pool1 < towards s.1.1 pool)%nat).
Proof.
  intros Hd Hb. split; [by eapply movePrice_segment_Return |]. revert Hb.
  destruct s as [[d dX] dY]. simpl in Hd. unfold movePrice_segment. unfold_method.
  destruct (getCurrentRange _ pool) as [r | |] eqn:Hr; simpl; try discriminate.
  destruct (decide (_ = 0)) as [| HL]; simpl; [discriminate |].
  intros [= <- <-]. unfold movePrice_test. rewrite bool_decide_eq_true.
  cbn [fst snd]. unfold towards.
  assert (Et : sqrtPrice pool + d = target) by (rewrite Hd; ring).
  rewrite Et.
  destruct (decide (0 < d)) as [Hpos | Hneg].
  - destruct (decide (d < 0)) as [Hlt | _]; [exfalso; qc_lra |].
    destruct (Math_min_cases r.2 target) as [[E Hle] | [E Hle]]; rewrite E;
      intros Ht; [| destruct Ht; ring].
    rewrite decide_False.
    + by apply above_decreases with r.
    + intros H. qc_lra.
  - destruct (decide (d < 0)) as [Hlt | Hge].
    + destruct (Math_max_cases r.1 target) as [[E Hle] | [E Hle]]; rewrite E;
        intros Ht; [| destruct Ht; ring].
      rewrite decide_True.
      * by apply below_decreases with r.
      * destruct (Qcle_lt_or_eq _ _ Hle) as [Hlt' | Heq]; [qc_lra |].
        destruct Ht. rewrite Heq. ring.
    + assert (d = 0) as E0 by qc_lra.
      assert (target = sqrtPrice pool) as -> by (rewrite <- Et, E0; ring).
      apply getCurrentRange_Return_covers in Hr as [[Hc1 Hc2] _].
      rewrite Math_max_r by done. intros Ht. destruct Ht. ring.
Qed.

(** X24. In exact arithmetic the loops of [sellY], [buyY] and [movePrice]
    end: every segment that does not finish the trade moves the price onto
    the far bound of a position that was in range, so there are at most as
    many such segments as there are positions, plus the last one. With more
    fuel than the pool has positions, a call returns or throws. *)
Theorem trades_end_within_one_segment_per_position (Math_sqrt : Qc → Qc)
    (fuel : nat) (a : Qc) (pool : Pool) :
  (length (values pool) < fuel)%nat →
  (sellY fuel a pool).2 ≠ Diverge
  ∧ (buyY fuel a pool).2 ≠ Diverge
  ∧ (movePrice Math_sqrt fuel a pool).2 ≠ Diverge.
Proof.
  intros Hfuel. split; [| split].
  - unfold sellY. destruct (decide (a ≤ 0)); [done |]. unfold_method.
    pose proof (while_ends (λ _, above) (λ _ _, True) sellY_test
                  (sellY_segment (a * feeRate pool))
                  (sellY_segment_ends _)) as H.
    specialize (H (λ s pool0 s1 pool1 _ _ Hb,
                     conj I (sellY_segment_progress _ _ _ _ _ Hb))
                  fuel (a - a * feeRate pool, 0) pool I).
    destruct (while _ _ _ _ _) as [pool1 [[dY dX] | e |]]; simpl in *;
      [done | done |].
    exfalso. apply H; [| done]. pose proof (above_le pool). lia.
  - unfold buyY. destruct (decide (a ≤ 0)); [done |]. unfold_method.
    pose proof (while_ends (λ _, below) (λ _ _, True) buyY_test buyY_segment
                  buyY_segment_ends) as H.
    specialize (H (λ s pool0 s1 pool1 _ _ Hb,
                     conj I (buyY_segment_progress _ _ _ _ Hb))
                  fuel (- a, 0) pool I).
    destruct (while _ _ _ _ _) as [pool1 [[dY dX] | e |]]; simpl in *;
      [done | done |].
    exfalso. apply H; [| done]. pose proof (below_le pool). lia.
  - unfold movePrice. unfold_method. simpl.
    destruct (decide _); [done |].
    pose proof (while_ends (λ s, towards s.1.1)
                  (λ s pool0, s.1.1 = Math_sqrt a - sqrtPrice pool0)
                  movePrice_test (movePrice_segment (Math_sqrt a))
                  (movePrice_segment_ends _)) as H.
    specialize (H (λ s pool0 s1 pool1 HI _ Hb,
                     movePrice_segment_progress _ _ _ _ _ HI Hb)
                  fuel (Math_sqrt a - sqrtPrice pool, 0, 0) pool eq_refl).
    destruct (while _ _ _ _ _) as [pool1 [[[d dX] dY] | e |]]; simpl in *;
      [done | done |].
    exfalso. apply H; [| done]. unfold towards.
    destruct (decide _); [pose proof (below_le pool) | pose proof (above_le pool)]; lia.
Qed.




Lemma movePrice_one_segment (Math_sqrt : Qc → Qc) (fuel : nat) (targetPrice : Qc)
    (pool : Pool) (r : Range) :
  let q := Math_sqrt targetPrice in
  let dir := if decide (q - sqrtPrice pool < 0) then DOWN else UP in
  let L := getLiquidityInCurrentRange dir pool in
  let dYPartial := L * (q - sqrtPrice pool) in
  let dXPartial := L * getDInvSqrtPrice pool (q - sqrtPrice pool) in
  let up := decide (0 < q - sqrtPrice pool) in
  let partialFees :=
    (if up then dYPartial else dXPartial) * (1 / (1 - feeRate pool) - 1) in
  q ≠ sqrtPrice pool →
  getCurrentRange dir pool = Return r → L ≠ 0 → r.1 ≤ q → q ≤ r.2 →
  movePrice Math_sqrt (S fuel) targetPrice pool
  = (set_sqrtPrice q
       (addFeesToPositions partialFees L (if up then TokenY else TokenX) dir pool),
     Return {| x := dXPartial + (if up then 0 else partialFees);
               y := dYPartial + (if up then partialFees else 0) |}).
Proof.
  intros q dir L dYPartial dXPartial up partialFees Hne Hr HL Hlo Hhi.
  unfold movePrice. unfold_method. cbn beta iota. fold q.
  rewrite decide_False by (intros E; by apply Hne).
  assert (Hnext : (if up then Math_min r.2 (sqrtPrice pool + (q - sqrtPrice pool))
                   else Math_max r.1 (sqrtPrice pool + (q - sqrtPrice pool))) = q).
  { assert (sqrtPrice pool + (q - sqrtPrice pool) = q) as -> by ring.
    destruct up; [by apply Math_min_r | by apply Math_max_r]. }
  erewrite while_S_Return.
  2: { apply bool_decide_eq_true. intros E. apply Hne. qc_lra. }
  2: { unfold movePrice_segment. unfold_method. fold dir. rewrite Hr. fold L.
       rewrite decide_False by done. fold up. rewrite Hnext. reflexivity. }
  rewrite while_done.
  2: { unfold movePrice_test. apply bool_decide_eq_false.
       assert (q - q = 0) as -> by ring. by intros []. }
  f_equal. f_equal. fold dYPartial dXPartial. fold partialFees.
  assert (Hup : (if decide (q - sqrtPrice pool < 0) then 0 else partialFees)
                = if up then partialFees else 0).
  { unfold up. destruct (decide (q - sqrtPrice pool < 0)) as [H1 | H1],
      (decide (0 < q - sqrtPrice pool)) as [H2 | H2]; try done.
    - exfalso. clear - H1 H2. qc_lra.
    - exfalso. clear - H1 H2 Hne. apply Hne. apply Qcnot_lt_le in H1, H2.
      apply Qcle_antisym; qc_lra. }
  rewrite Hup. f_equal; ring.
Qed.

(** X26. A move whose target lies in the current range is one segment at
    the liquidity [L] in range, from the square-root price [p] to the
    square root [q] of the target. Upward the pool gives [L/p - L/q] of X
    and takes [L (q - p) / (1 - feeRate)] of Y; downward it gives
    [L (p - q)] of Y and takes [(L/q - L/p) / (1 - feeRate)] of X. The
    positions are paid the fee rate times the amount taken, in that token. *)
Theorem movePrice_within_range (Math_sqrt : Qc → Qc) (fuel : nat)
    (targetPrice : Qc) (pool : Pool) (r : Range) :
  let q := Math_sqrt targetPrice in
  let p := sqrtPrice pool in
  let f := feeRate pool in
  f ≠ 1 →
  (let L := getLiquidityInCurrentRange UP pool in
   getCurrentRange UP pool = Return r → L ≠ 0 → 0 < p → p < q → q ≤ r.2 →
   ∃ pool',
     movePrice Math_sqrt (S fuel) targetPrice pool
     = (pool', Return {| x := L / q - L / p; y := L * (q - p) / (1 - f) |})
     ∧ sqrtPrice pool' = q
     ∧ total_rewards pool'
       = {| x := x (total_rewards pool);
            y := y (total_rewards pool) + f * (L * (q - p) / (1 - f)) |})
  ∧ (let L := getLiquidityInCurrentRange DOWN pool in
     getCurrentRange DOWN pool = Return r → L ≠ 0 → 0 < q → q < p → r.1 ≤ q →
     ∃ pool',
       movePrice Math_sqrt (S fuel) targetPrice pool
       = (pool', Return {| x := (L / q - L / p) / (1 - f); y := L * (q - p) |})
       ∧ sqrtPrice pool' = q
       ∧ total_rewards pool'
         = {| x := x (total_rewards pool) + f * ((L / q - L / p) / (1 - f));
              y := y (total_rewards pool) |}).
Proof.
  intros q p f Hf.
  assert (H1f : 1 - f ≠ 0) by (intros E; apply Hf; qc_lra).
  split.
  - intros L Hr HL Hp Hpq Hhi.
    destruct (getCurrentRange_Return_covers UP pool r Hr) as [[Hc1 Hc2] _].
    pose proof (movePrice_one_segment Math_sqrt fuel targetPrice pool r) as H.
    cbv zeta in H. fold q p f in H.
    destruct (decide (q - p < 0)) as [Hn | _]; [exfalso; qc_lra |].
    destruct (decide (0 < q - p)) as [_ | Hn]; [| exfalso; apply Hn; qc_lra].
    fold L in H. rewrite H; try done.
    + eexists. split.
      * apply (f_equal2 pair); [reflexivity |]. f_equal. unfold getDInvSqrtPrice. fold p.
        assert (Hq : 0 < q) by by apply Qclt_trans with p.
        f_equal; qc_field.
      * split; [reflexivity |].
        change (total_rewards (set_sqrtPrice ?v ?pool1)) with (total_rewards pool1).
        rewrite total_rewards_addFeesToPositions. fold L. cbv zeta.
        f_equal. fold f. qc_field.
    + intros E. qc_lra.
    + apply Qcle_trans with p; [done | by apply Qclt_le_weak].
  - intros L Hr HL Hq Hpq Hlo.
    destruct (getCurrentRange_Return_covers DOWN pool r Hr) as [[Hc1 Hc2] _].
    pose proof (movePrice_one_segment Math_sqrt fuel targetPrice pool r) as H.
    cbv zeta in H. fold q p f in H.
    destruct (decide (q - p < 0)) as [_ | Hn]; [| exfalso; apply Hn; qc_lra].
    destruct (decide (0 < q - p)) as [Hn | _]; [exfalso; qc_lra |].
    fold L in H. rewrite H; try done.
    + eexists. split.
      * apply (f_equal2 pair); [reflexivity |]. f_equal. unfold getDInvSqrtPrice. fold p.
        assert (Hp : 0 < p) by by apply Qclt_trans with q.
        f_equal; qc_field.
      * split; [reflexivity |].
        change (total_rewards (set_sqrtPrice ?v ?pool1)) with (total_rewards pool1).
        rewrite total_rewards_addFeesToPositions. fold L. cbv zeta.
        assert (Hp : 0 < p) by by apply Qclt_trans with q.
        unfold getDInvSqrtPrice. fold p f. f_equal. qc_field.
    + intros E. qc_lra.
    + apply Qcle_trans with p; [by apply Qclt_le_weak | done].
Qed.

(** * The concrete pools, evaluated *)

(** Closed goals: evaluate, then compare the fractions. *)
Ltac qc_compute :=
  vm_compute;
  repeat match goal with
  | |- @eq Qc _ _ => apply Qc_is_canon; reflexivity
  | |- _ ∧ _ => split
  | |- _ ≠ _ => discriminate
  | |- @eq _ _ _ => reflexivity
  | |- @eq _ _ _ => progress f_equal
  | |- _ => done
  end.

(** C1, at an input where the code departs from it. [sellY(3)] on
    [two_ranges] (fee rate 1/2, so the fee is 3/2) runs two segments and
    returns; "a" is paid 1 and "b" 3/2, and the rewards in Y grow by 5/2 in
    all, not by 3/2: the fee of a segment is the whole fee times the
    segment's part of the amount that was left, not of the whole amount. *)
Theorem sellY_two_segments_fees :
  let sold := sellY 10 (num 3 1) two_ranges in
  sold.2 = Return (num 3 5)
  ∧ sqrtPrice sold.1 = num 5 2
  ∧ rewards <$> getPosition "a" sold.1 = Some {| x := 0; y := 1 |}
  ∧ rewards <$> getPosition "b" sold.1 = Some {| x := 0; y := num 3 2 |}
  ∧ y (total_rewards sold.1) - y (total_rewards two_ranges) = num 5 2
  ∧ num 3 1 * feeRate two_ranges = num 3 2.
Proof. qc_compute. Qed.

(** A sale that fits in the range of "a" pays the fee once: [sellY(1)] on
    [two_ranges] pays 1/2 to "a" and nothing to "b". *)
Example sellY_one_segment_on_two_ranges :
  let sold := sellY 10 1 two_ranges in
  sold.2 = Return (num 1 3)
  ∧ rewards <$> getPosition "a" sold.1 = Some {| x := 0; y := num 1 2 |}
  ∧ rewards <$> getPosition "b" sold.1 = Some {| x := 0; y := 0 |}
  ∧ 1 * feeRate two_ranges = num 1 2.
Proof. qc_compute. Qed.

(** C9, at an input where the code departs from it. [buyX(2)] on
    [one_range] asks for more X than [liquidity / sqrtPrice = 1]:
    [getDSqrtPrice] turns negative, the call returns -4 after one segment,
    the price is left at -1 and the reward of "a" in Y goes from 0 to -2. *)
Theorem buyX_overdemand_lowers_rewards :
  let bought := buyX 10 (num 2 1) one_range in
  rewards <$> getPosition "a" one_range = Some {| x := 0; y := 0 |}
  ∧ bought.2 = Return (num (-4) 1)
  ∧ sqrtPrice bought.1 = num (-1) 1
  ∧ rewards <$> getPosition "a" bought.1 = Some {| x := 0; y := num (-2) 1 |}
  ∧ num (-2) 1 < 0.
Proof. qc_compute. Qed.

(** [one_range] is a pool of the data model, and [sellX(1/4)] on it pays
    the fee 1/8 in X. *)
Example one_range_valid_and_sellX :
  valid one_range
  ∧ rewards <$> getPosition "a" (sellX 10 (num 1 4) one_range).1
    = Some {| x := num 1 8; y := 0 |}.
Proof.
  split; [| qc_compute]. unfold valid. split; [qc_compute |]. split; [qc_compute |].
  intros k position Hk. unfold one_range, enterPosition in Hk. simpl in Hk.
  apply lookup_insert_Some in Hk as [[_ <-] | [_ Hk]]; [qc_compute |].
  by rewrite lookup_empty in Hk.
Qed.

(** C6 fails as stated: buying 101 of Y, or 101 of X, from [around_one]
    (the calls of the test "Can't buy more tokens than liquidity allows")
    throws, but the error is the out-of-range one of [getCurrentRange], not
    the insufficient-liquidity one. *)
Lemma overbuy_is_not_NotEnoughLiquidity :
  (buyY 10 (num 101 1) around_one).2 = Throw OutOfRange
  ∧ (buyY 10 (num 101 1) around_one).2 ≠ Throw NotEnoughLiquidity
  ∧ (buyX 10 (num 101 1) around_one).2 = Throw OutOfRange
  ∧ (buyX 10 (num 101 1) around_one).2 ≠ Throw NotEnoughLiquidity.
Proof. qc_compute. Qed.

(** The failed [buyY(3/4)] on [one_range] leaves the price at the lower
    bound 1/2 and the reward 1 of X of its first segment. *)
Example buyY_fails_and_keeps_first_segment :
  let bought := buyY 10 (num 3 4) one_range in
  bought.2 = Throw OutOfRange
  ∧ sqrtPrice one_range = 1
  ∧ sqrtPrice bought.1 = num 1 2
  ∧ rewards <$> getPosition "a" one_range = Some {| x := 0; y := 0 |}
  ∧ rewards <$> getPosition "a" bought.1 = Some {| x := 1; y := 0 |}.
Proof. qc_compute. Qed.

(** [getCurrentRange] on three overlapping positions: the result is not the
    range of the first position found, and a wide position that does not
    cover the price is left out. *)
Example getCurrentRange_not_first_found :
  let pool := new_Pool sqrt_15 (Some 1) None in
  let pool :=
    (enterPosition sqrt_15 "a" (num 1 4, num 4 1) (WithLiquidity 1) pool).1 in
  let pool :=
    (enterPosition sqrt_15 "b" (num 1 9, num 9 4) (WithLiquidity 1) pool).1 in
  let pool :=
    (enterPosition sqrt_15 "c" (num 4 1, num 100 1) (WithLiquidity 1) pool).1 in
  getCurrentRange UP pool = Return (num 1 2, num 3 2).
Proof. qc_compute. Qed.

(** The current range is computed from the positions in range only.
    On [nested_ranges] it is [[1, 4]] in square-root prices, at the
    liquidity 1 of "a", although "b" starts at 2: inside the range, at
    5/2, the liquidity in range is 2. [sellY(6)] crosses the whole of "b" in
    one segment, and "b" is paid nothing. *)
Example liquidity_changes_inside_current_range :
  getCurrentRange UP nested_ranges = Return (1, num 4 1)
  ∧ getLiquidityInCurrentRange UP nested_ranges = 1
  ∧ covers UP (num 5 2) (1, num 4 1)
  ∧ getLiquidityInCurrentRange UP (set_sqrtPrice (num 5 2) nested_ranges) = num 2 1
  ∧ sqrtPrice (sellY 5 (num 6 1) nested_ranges).1 = num 4 1
  ∧ rewards <$> getPosition "b" (sellY 5 (num 6 1) nested_ranges).1
    = Some {| x := 0; y := 0 |}.
Proof. qc_compute. Qed.

(** ** Instances of the theorems *)

Lemma getTokenAmounts_clamped_witness :
  getTokenAmounts 1 (num 1 2, num 2 1) (num 3 1)
  = {| x := 0; y := 1 * num 2 1 - 1 * num 1 2 |}.
Proof.
  apply (getTokenAmounts_clamped 1 (num 1 2) (num 2 1) (num 3 1)); qc_compute.
Defined.

Lemma dSqrtPrice_conversions_inverse_witness :
  getDSqrtPrice one_range (getDInvSqrtPrice one_range (num 1 2)) = num 1 2
  ∧ getDInvSqrtPrice one_range (getDSqrtPrice one_range (num 1 3)) = num 1 3.
Proof.
  destruct (dSqrtPrice_conversions_inverse one_range (num 1 2) (num 1 3))
    as [H1 H2]; [qc_compute |].
  split; [apply H1 | apply H2]; qc_compute.
Defined.

Lemma positions_in_range_and_liquidity_witness :
  let pool := new_Pool sqrt_15 (Some 1) None in
  let deposit := WithBalance {| x := 1; y := 1 |} in
  let pool1 := (enterPosition sqrt_15 "u1" (num 1 4, num 4 1) deposit pool).1 in
  let pool2 := (enterPosition sqrt_15 "u2" (num 1 4, num 4 1) deposit pool1).1 in
  getLiquidityInCurrentRange UP pool2 = 2 * getLiquidityInCurrentRange UP pool1.
Proof.
  intros pool deposit pool1 pool2.
  destruct (positions_in_range_and_liquidity sqrt_15 pool UP
              (new_Position sqrt_15 "u1" 1 (FromRange (num 1 4, num 4 1))
                 (FromLiquidity 1))
              "u1" "u2" (num 1 4, num 4 1) deposit) as (_ & _ & _ & H).
  apply H; done.
Defined.

Lemma overbuy_single_position_out_of_range_witness :
  (∃ pool', buyY 2 (num 101 1) around_one = (pool', Throw OutOfRange)
            ∧ sqrtPrice pool' = sqrt_15 (num 10 11))
  ∧ (∃ pool', buyX 2 (num 101 1) around_one = (pool', Throw OutOfRange)
              ∧ sqrtPrice pool' = sqrt_15 (num 11 10)).
Proof.
  destruct (overbuy_single_position_out_of_range 0 "a"
              (new_Position sqrt_15 "a" 1 (FromRange (num 10 11, num 11 10))
                 (FromBalance {| x := num 100 1; y := num 100 1 |} 1))
              1 0 (num 101 1)) as [HY HX]; [qc_compute .. |].
  split; [apply HY | apply HX]; qc_compute.
Defined.

Lemma failed_call_keeps_completed_segments_witness :
  fails_after_segments buyY_test buyY_segment (- num 3 4, 0)
    one_range (buyY 10 (num 3 4) one_range).1 OutOfRange.
Proof.
  destruct (failed_call_keeps_completed_segments sqrt_15 10 (num 3 4)
              one_range (buyY 10 (num 3 4) one_range).1 OutOfRange)
    as (_ & H & _).
  destruct H as [[H _] | H]; [| discriminate H | exact H].
  apply injective_projections; [reflexivity | qc_compute].
Defined.

Lemma exitPosition_spec_witness :
  (exitPosition "a" one_range).2 = Return {| x := num 1 2; y := num 1 2 |}
  ∧ getPosition "a" (exitPosition "a" one_range).1 = None.
Proof.
  pose proof (exitPosition_spec one_range "a") as H.
  rewrite (lookup_insert_eq (M := gmap string) ∅ "a" _
           : positions one_range !! "a" = Some _) in H.
  destruct H as (-> & H & _). split; [qc_compute | exact H].
Defined.

Lemma movePrice_same_price_witness :
  movePrice sqrt_15 0 1 (new_Pool sqrt_15 None None)
  = (new_Pool sqrt_15 None None, Return {| x := 0; y := 0 |}).
Proof. apply movePrice_same_price. qc_compute. Defined.

Lemma nonpositive_amount_rejected_witness :
  sellY 3 (- num 1 2) one_range = (one_range, Throw CantSellNegative)
  ∧ sellX 3 (- num 1 2) one_range = (one_range, Throw CantSellNegative)
  ∧ buyY 3 (- num 1 2) one_range = (one_range, Throw CantBuyNegative)
  ∧ buyX 3 (- num 1 2) one_range = (one_range, Throw CantBuyNegative).
Proof. apply (nonpositive_amount_rejected 3 (- num 1 2) one_range). qc_compute. Defined.

Lemma no_position_in_range_throws_witness :
  let empty := new_Pool sqrt_15 None None in
  (sellY 1 1 empty = (empty, Throw OutOfRange)
   ∧ buyX 1 1 empty = (empty, Throw OutOfRange))
  ∧ (sellX 1 1 two_ranges = (two_ranges, Throw OutOfRange)
     ∧ buyY 1 1 two_ranges = (two_ranges, Throw OutOfRange)).
Proof.
  intros empty. split.
  - destruct (no_position_in_range_throws 0 1 empty) as [H _]; [qc_compute |].
    destruct H as [H1 H2]; [reflexivity |]. split; [apply H1 | apply H2].
    qc_compute.
  - destruct (no_position_in_range_throws 0 1 two_ranges) as [_ H]; [qc_compute |].
    destruct H as [H1 H2]; [reflexivity |]. split; [apply H1 | apply H2].
    qc_compute.
Defined.

Lemma zero_liquidity_in_range_throws_witness :
  let pool :=
    (enterPosition sqrt_15 "z" (num 1 4, num 4 1) (WithLiquidity 0)
       (new_Pool sqrt_15 None None)).1 in
  sellY 1 1 pool = (pool, Throw NotEnoughLiquidity)
  ∧ buyX 1 1 pool = (pool, Throw NotEnoughLiquidity)
  ∧ sellX 1 1 pool = (pool, Throw NotEnoughLiquidity)
  ∧ buyY 1 1 pool = (pool, Throw NotEnoughLiquidity).
Proof.
  intros pool.
  destruct (zero_liquidity_in_range_throws 0 1 pool) as [HU HD]; [qc_compute |].
  destruct HU as [H1 H2]; [vm_compute; discriminate | qc_compute |].
  destruct HD as [H3 H4]; [vm_compute; discriminate | qc_compute |].
  split; [apply H1; qc_compute | split; [apply H2 | split; [apply H3; qc_compute | apply H4]]].
Defined.

Lemma movePrice_reaches_target_witness :
  sqrtPrice (movePrice sqrt_15 5 (num 9 1) two_ranges).1 = sqrt_15 (num 9 1).
Proof.
  apply (movePrice_reaches_target sqrt_15 5 (num 9 1) two_ranges _
           {| x := - num 2 3; y := num 4 1 |}).
  apply injective_projections; [reflexivity | qc_compute].
Defined.

Lemma purchase_fee_is_rate_times_payment_witness :
  total_rewards (buyY 5 (num 1 4) one_range).1
  = {| x := x (total_rewards one_range) + feeRate one_range * num 2 3;
       y := y (total_rewards one_range) |}
  ∧ total_rewards (buyX 5 (num 1 4) one_range).1
    = {| x := x (total_rewards one_range);
         y := y (total_rewards one_range) + feeRate one_range * num 2 3 |}.
Proof.
  split.
  - apply (purchase_fee_is_rate_times_payment 5 (num 1 4) one_range);
      [qc_compute |].
    apply injective_projections; [reflexivity | qc_compute].
  - apply (purchase_fee_is_rate_times_payment 5 (num 1 4) one_range);
      [qc_compute |].
    apply injective_projections; [reflexivity | qc_compute].
Defined.






Lemma getTokenAmounts_nonneg_monotone_witness :
  x (getTokenAmounts 1 (num 1 2, num 2 1) (num 3 1))
  ≤ x (getTokenAmounts 1 (num 1 2, num 2 1) 1)
  ∧ y (getTokenAmounts 1 (num 1 2, num 2 1) 1)
    ≤ y (getTokenAmounts 1 (num 1 2, num 2 1) (num 3 1)).
Proof.
  destruct (getTokenAmounts_nonneg_monotone 1 (num 1 2) (num 2 1) 1 (num 3 1))
    as (_ & _ & H); [qc_compute .. |].
  apply H. qc_compute.
Defined.

Lemma getLiquidity_virtual_reserves_witness :
  let tokens := {| x := num 1 2; y := num 1 2 |} in
  let L := getLiquidity sqrt_15 tokens (num 1 2, num 2 1) in
  (x tokens + L / num 2 1) * (y tokens + L * num 1 2) = L ^ 2.
Proof.
  intros tokens L.
  apply (getLiquidity_virtual_reserves sqrt_15 tokens (num 1 2) (num 2 1));
    qc_compute.
Defined.

Lemma getLiquidity_getTokenAmounts_witness :
  getLiquidity sqrt_15 (getTokenAmounts 1 (num 1 2, num 2 1) 1) (num 1 2, num 2 1)
  = 1.
Proof.
  apply (getLiquidity_getTokenAmounts sqrt_15 1 (num 1 2) (num 2 1) 1);
    qc_compute.
Defined.

Lemma getMaxTokenAmounts_within_offer_witness :
  let tokens := {| x := num 100 1; y := num 100 1 |} in
  let sqrtRange := (sqrt_15 (num 10 11), sqrt_15 (num 11 10)) in
  x (getMaxTokenAmounts sqrt_15 tokens sqrtRange 1) ≤ x tokens
  ∧ y (getMaxTokenAmounts sqrt_15 tokens sqrtRange 1) ≤ y tokens.
Proof.
  intros tokens sqrtRange.
  destruct (getMaxTokenAmounts_within_offer sqrt_15 tokens sqrtRange 1)
    as (H1 & H2 & _); [qc_compute .. |].
  split; [exact H1 | exact H2].
Defined.

Lemma getRange_getTokenAmounts_witness :
  getRange (getTokenAmounts 1 (num 1 2, num 2 1) 1) 1 (GivenPb (num 2 1))
  = Some (num 1 2, num 2 1)
  ∧ getRange (getTokenAmounts 1 (num 1 2, num 2 1) 1) 1 (GivenPa (num 1 2))
    = Some (num 1 2, num 2 1).
Proof.
  apply (getRange_getTokenAmounts 1 (num 1 2) (num 2 1) 1); qc_compute.
Defined.

Lemma enterPosition_then_exitPosition_witness :
  ∃ position pool1,
    enterPosition sqrt_15 "c" (num 1 4, num 4 1) (WithLiquidity 1) two_ranges
    = (pool1, Return position)
    ∧ exitPosition "c" pool1
      = (two_ranges, Return (balance (sqrtPrice two_ranges) position)).
Proof.
  destruct (enterPosition_then_exitPosition sqrt_15 "c" (num 1 4, num 4 1)
              (WithLiquidity 1) two_ranges)
    as (position & pool1 & H1 & _ & _ & _ & _ & _ & _ & H2 & _);
    [vm_compute; reflexivity |].
  exists position, pool1. split; [exact H1 | exact H2].
Defined.

Lemma exitPosition_twice_witness :
  exitPosition "a" (exitPosition "a" one_range).1
  = ((exitPosition "a" one_range).1, Throw PositionDoesntExist).
Proof.
  apply (exitPosition_twice "a" one_range (exitPosition "a" one_range).1
           {| x := num 1 2; y := num 1 2 |}).
  apply injective_projections; [reflexivity | qc_compute].
Defined.

Lemma getCurrentRange_keeps_positions_in_range_witness :
  covers UP (sqrtPrice two_ranges) (1, num 2 1) ∧ (1, num 2 1).1 < (1, num 2 1).2.
Proof.
  destruct (getCurrentRange_keeps_positions_in_range UP two_ranges (1, num 2 1))
    as (H1 & H2 & _); [qc_compute |].
  split; [exact H1 | exact H2].
Defined.

Lemma direction_matters_only_on_a_bound_witness :
  let position :=
    new_Position sqrt_15 "a" 1 (FromRange (num 1 4, num 4 1)) (FromLiquidity 1) in
  let pool := single "a" position 1 (num 1 2) in
  getPositionsInRange UP pool = getPositionsInRange DOWN pool
  ∧ getLiquidityInCurrentRange UP pool = getLiquidityInCurrentRange DOWN pool
  ∧ getCurrentRange UP pool = getCurrentRange DOWN pool.
Proof.
  intros position pool. apply (direction_matters_only_on_a_bound pool).
  intros position' Hin. unfold pool in Hin. rewrite values_single in Hin.
  apply list_elem_of_singleton in Hin as ->. qc_compute.
Defined.

Lemma addFeesToPositions_splits_fee_witness :
  total_rewards
    (addFeesToPositions (num 1 2) (getLiquidityInCurrentRange UP two_ranges)
       TokenY UP two_ranges)
  = {| x := x (total_rewards two_ranges);
       y := y (total_rewards two_ranges) + num 1 2 |}.
Proof.
  destruct (addFeesToPositions_splits_fee (num 1 2) TokenY UP two_ranges)
    as (H & _); [qc_compute |].
  exact H.
Defined.

Lemma rewards_never_shrink_witness :
  grown one_range (sellY 5 (num 1 4) one_range).1
  ∧ grown one_range (movePrice sqrt_15 5 (num 9 4) one_range).1.
Proof.
  destruct (rewards_never_shrink sqrt_15 5 (num 1 4) one_range) as (H1 & _).
  { split; [qc_compute |]. split; [qc_compute |].
    intros k position Hk. unfold one_range, enterPosition in Hk. simpl in Hk.
    apply lookup_insert_Some in Hk as [[_ <-] | [_ Hk]]; [qc_compute |].
    by rewrite lookup_empty in Hk. }
  destruct (rewards_never_shrink sqrt_15 5 (num 9 4) one_range) as (_ & _ & _ & H2).
  { split; [qc_compute |]. split; [qc_compute |].
    intros k position Hk. unfold one_range, enterPosition in Hk. simpl in Hk.
    apply lookup_insert_Some in Hk as [[_ <-] | [_ Hk]]; [qc_compute |].
    by rewrite lookup_empty in Hk. }
  split; [exact H1 | exact H2].
Defined.

Lemma getters_recover_inputs_witness :
  let pool := new_Pool sqrt_15 (Some (num 4 1)) None in
  let entered :=
    enterPosition sqrt_15 "a" (num 1 4, num 9 1) (WithLiquidity 1) pool in
  price pool = num 4 1
  ∧ ∀ position, entered.2 = Return position → range position = (num 1 4, num 9 1).
Proof.
  intros pool entered. split.
  - apply (getters_recover_inputs sqrt_15 (Some (num 4 1)) None "a"
             (num 1 4, num 9 1) (WithLiquidity 1) pool entered.1
             (new_Position sqrt_15 "a" (sqrtPrice pool)
                (FromRange (num 1 4, num 9 1)) (FromLiquidity 1))).
    qc_compute.
  - intros position Hp.
    apply (getters_recover_inputs sqrt_15 (Some (num 4 1)) None "a"
             (num 1 4, num 9 1) (WithLiquidity 1) pool entered.1 position);
      [qc_compute | qc_compute |].
    apply injective_projections; [reflexivity | exact Hp].
Defined.

Lemma trades_end_within_one_segment_per_position_witness :
  (sellY 3 (num 3 1) two_ranges).2 ≠ Diverge
  ∧ (buyY 3 (num 3 1) two_ranges).2 ≠ Diverge
  ∧ (movePrice sqrt_15 3 (num 3 1) two_ranges).2 ≠ Diverge.
Proof.
  apply (trades_end_within_one_segment_per_position sqrt_15 3 (num 3 1) two_ranges).
  vm_compute. lia.
Defined.


Lemma movePrice_within_range_witness :
  let q := sqrt_15 (num 9 4) in
  let p := sqrtPrice one_range in
  let f := feeRate one_range in
  let L := getLiquidityInCurrentRange UP one_range in
  ∃ pool',
    movePrice sqrt_15 1 (num 9 4) one_range
    = (pool', Return {| x := L / q - L / p; y := L * (q - p) / (1 - f) |})
    ∧ sqrtPrice pool' = q.
Proof.
  intros q p f L.
  destruct (movePrice_within_range sqrt_15 0 (num 9 4) one_range (num 1 2, num 2 1))
    as [H _]; [qc_compute |].
  destruct H as (pool' & H1 & H2 & _); [qc_compute .. |].
  exists pool'. split; [exact H1 | exact H2].
Defined.
